(** * Leo-Automation: status reconciliation and the publish backstop

    A shallow embedding of the job store ([app/storage/storage_manager.py]),
    the reconciliation endpoints ([app/api/videos.py]: [get_jobs],
    [get_job_status], [sync_jobs_with_youtube]) and the backstop scheduler
    ([app/scheduler/job_manager.py]), with the properties of the design
    document stated and settled against them.

    Conventions.
    - A Python [dict] is an association list in insertion order with
      pairwise distinct keys ([Py.dict], [Py.dict_wf]): iteration order
      decides the discovery order of the reconciled view.
    - A call of a collaborator that may raise returns a [Py.result]; the
      [try]/[except] blocks of the source are the matches on it.
    - The jobs file is threaded explicitly: an endpoint takes the store
      and returns the store it leaves behind.
    - Instants are integers (seconds since the epoch, UTC). *)

From Stdlib Require Import String Ascii List ZArith Bool Lia.
From Stdlib Require Import Sorting.Sorted Sorting.Permutation.
Import ListNotations.

Local Open Scope string_scope.
Local Open Scope Z_scope.

(* ------------------------------------------------------------------ *)
(** * Python values used by the program *)

Module Py.

(** The outcome of a call that may raise; [Raised msg] carries [str(e)]. *)
Inductive result (A : Type) : Type :=
| Ok (a : A)
| Raised (msg : string).
Arguments Ok {A} a.
Arguments Raised {A} msg.

(** Truthiness of a string, and of [d.get(key)] (absent, [None] and the
    empty string are all false). *)
Definition truthy_str (s : string) : bool := negb (s =? "")%string.

Definition truthy (o : option string) : bool :=
  match o with
  | Some s => truthy_str s
  | None => false
  end.

(** [s.replace('Z', '+00:00')]: every occurrence is replaced. *)
Fixpoint replace_Z (s : string) : string :=
  match s with
  | EmptyString => EmptyString
  | String c r =>
      if Ascii.eqb c "Z"%char then ("+00:00" ++ replace_Z r)%string
      else String c (replace_Z r)
  end.

(** [x in xs] for a list of strings. *)
Definition str_in (x : string) (xs : list string) : bool :=
  existsb (String.eqb x) xs.

(** ** Dictionaries with string keys, in insertion order *)

Definition dict (V : Type) : Type := list (string * V).

Definition keys {V} (d : dict V) : list string := map fst d.
Definition values {V} (d : dict V) : list V := map snd d.

Definition dict_wf {V} (d : dict V) : Prop := NoDup (keys d).

(** [d.get(k)] *)
Fixpoint dict_get {V} (k : string) (d : dict V) : option V :=
  match d with
  | [] => None
  | (k', v) :: r => if (k' =? k)%string then Some v else dict_get k r
  end.

(** [k in d] *)
Definition dict_mem {V} (k : string) (d : dict V) : bool :=
  match dict_get k d with Some _ => true | None => false end.

(** [d[k] = v]: an existing key keeps its position, a new one goes last. *)
Fixpoint dict_set {V} (k : string) (v : V) (d : dict V) : dict V :=
  match d with
  | [] => [(k, v)]
  | (k', v') :: r =>
      if (k' =? k)%string then (k', v) :: r else (k', v') :: dict_set k v r
  end.

(** [del d[k]] (only called on a key that is present). *)
Fixpoint dict_del {V} (k : string) (d : dict V) : dict V :=
  match d with
  | [] => []
  | (k', v') :: r =>
      if (k' =? k)%string then r else (k', v') :: dict_del k r
  end.

(** In-place mutation of the value stored under [k]: [f] stands for the
    assignments [d[k][field] = ...]. *)
Fixpoint dict_adjust {V} (k : string) (f : V -> V) (d : dict V) : dict V :=
  match d with
  | [] => []
  | (k', v') :: r =>
      if (k' =? k)%string then (k', f v') :: r
      else (k', v') :: dict_adjust k f r
  end.

(** ** [list.sort(key=...)] on string keys

    Python's sort is stable and compares the keys as strings, code point
    by code point. For a total order every stable sort returns the same
    list; it is written here as the insertion of each element before the
    first element whose key is not smaller. *)

Section Sort.
Context {A : Type} (key : A -> string).

Fixpoint insert_by (a : A) (l : list A) : list A :=
  match l with
  | [] => [a]
  | b :: r =>
      if (key a <=? key b)%string then a :: b :: r
      else b :: insert_by a r
  end.

Fixpoint sort_by (l : list A) : list A :=
  match l with
  | [] => []
  | a :: r => insert_by a (sort_by r)
  end.
End Sort.

(** ** [sorted(l, key=..., reverse=True)] and [l.sort(key=..., reverse=True)]

    Descending and still stable: elements with equal keys keep their
    original order. Each element is inserted before the first element
    whose key is not greater. *)

Section SortDesc.
Context {A : Type} (key : A -> string).

Fixpoint insert_by_desc (a : A) (l : list A) : list A :=
  match l with
  | [] => [a]
  | b :: r =>
      if (key b <=? key a)%string then a :: b :: r
      else b :: insert_by_desc a r
  end.

Fixpoint sort_by_desc (l : list A) : list A :=
  match l with
  | [] => []
  | a :: r => insert_by_desc a (sort_by_desc r)
  end.
End SortDesc.

(** [l[:n]]: the first [n] elements, or all but the last [-n] when [n] is
    negative. *)
Definition slice_to {A : Type} (n : Z) (l : list A) : list A :=
  if 0 <=? n then firstn (Z.to_nat n) l
  else firstn (length l - Z.to_nat (- n)) l.

(** [sub in s] for strings. *)
Fixpoint str_contains (sub s : string) : bool :=
  String.prefix sub s
  || match s with
     | EmptyString => false
     | String _ r => str_contains sub r
     end.

(** [s.split(sep)] for a separator that is not empty: the occurrences of
    [sep] are taken from the left and do not overlap. [skip] counts the
    characters of a separator still to pass, [cur] is the piece being
    read. *)
Fixpoint str_split_from (sep s : string) (skip : nat) (cur : string)
  : list string :=
  match s with
  | EmptyString => [cur]
  | String c r =>
      match skip with
      | S k => str_split_from sep r k cur
      | O =>
          if String.prefix sep s
          then cur :: str_split_from sep r (String.length sep - 1) EmptyString
          else str_split_from sep r 0 (cur ++ String c EmptyString)%string
      end
  end.

Definition str_split (sep s : string) : list string :=
  str_split_from sep s 0 EmptyString.

End Py.

(* ------------------------------------------------------------------ *)
(** * [app/models/job.py] *)

Inductive JobStatus : Type :=
| PENDING
| UPLOADED
| SCHEDULED
| PUBLISHED
| FAILED.

Definition JobStatus_eq_dec (a b : JobStatus) : {a = b} + {a <> b}.
Proof. decide equality. Defined.

Definition status_eqb (a b : JobStatus) : bool :=
  if JobStatus_eq_dec a b then true else false.

(** [job.get('status') in [...]] *)
Definition status_in (a : JobStatus) (l : list JobStatus) : bool :=
  existsb (status_eqb a) l.

(** The [metadata] dictionary written by [schedule_videos]. *)
Record Metadata : Type := mkMetadata {
  md_description : string;
  md_tags : list string;
  md_category_id : string
}.

(** A stored job record ([ScheduledJob]). [video_id] and [error_message]
    are optional in the schema and only read with [job.get(...)]: [None]
    stands for an absent key as well as for a stored null. The schema
    makes [publish_datetime] a required value; the endpoints read it with
    [job.get('publish_datetime')], and [None] stands for a record without
    that key. *)
Record Job : Type := mkJob {
  job_id : string;
  user_id : string;
  channel_id : string;
  video_id : option string;
  video_title : string;
  status : JobStatus;
  publish_datetime : option string;
  created_at : string;
  error_message : option string;
  metadata : option Metadata
}.

Definition set_status (st : JobStatus) (j : Job) : Job :=
  mkJob (job_id j) (user_id j) (channel_id j) (video_id j) (video_title j)
        st (publish_datetime j) (created_at j) (error_message j) (metadata j).

Definition set_error_message (m : option string) (j : Job) : Job :=
  mkJob (job_id j) (user_id j) (channel_id j) (video_id j) (video_title j)
        (status j) (publish_datetime j) (created_at j) m (metadata j).

Definition set_video_id (v : option string) (j : Job) : Job :=
  mkJob (job_id j) (user_id j) (channel_id j) v (video_title j)
        (status j) (publish_datetime j) (created_at j) (error_message j)
        (metadata j).

(* ------------------------------------------------------------------ *)
(** * The other records of the storage files *)

(** A user record of [users.json], as [signup] writes it. *)
Record User : Type := mkUser {
  email : string;
  password_hash : string;
  user_created_at : string;
  updated_at : string
}.

(** A token record of [youtube_tokens.json]; the keys the OAuth callback
    only adds once the channel is known are optional. *)
Record Token : Type := mkToken {
  access_token : option string;
  refresh_token : option string;
  token_uri : option string;
  token_client_id : option string;
  client_secret : option string;
  scopes : list string;
  expiry : option string;
  token_channel_id : option string;
  channel_name : option string;
  token_created_at : string
}.

(** An element of the list [YouTubeClient.get_recent_videos] returns. *)
Record RecentVideo : Type := mkRecentVideo {
  rv_video_id : string;
  rv_title : string;
  rv_description : string;
  rv_status : string;
  rv_privacy_status : string;
  rv_date : string;
  rv_published_at : string;
  rv_scheduled_at : option string;
  rv_thumbnail : string;
  rv_source : string
}.

(** A failure record of [failed_videos.json]. Both places that build one
    ([schedule_videos] and [refresh_failed_videos]) set every key. *)
Record FailedVideo : Type := mkFailedVideo {
  fv_title : string;
  attempted_schedule_time : string;
  failure_time : string;
  failure_reason : string;
  fv_job_id : string;
  fv_video_id : option string
}.

(* ------------------------------------------------------------------ *)
(** * [app/storage/storage_manager.py]: the jobs file *)

Module Storage.
Import Py.

(** The content of the jobs file: job id to job record. *)
Definition JobStore : Type := dict Job.

(** Every record is filed under its own [job_id] (what [save_job] is
    called with in [schedule_videos]) and the keys are distinct. *)
Definition wf_store (s : JobStore) : Prop :=
  dict_wf s /\ Forall (fun kv => job_id (snd kv) = fst kv) s.

Definition save_job (id : string) (job_data : Job) (jobs : JobStore)
  : JobStore :=
  dict_set id job_data jobs.

Definition get_job (id : string) (jobs : JobStore) : option Job :=
  dict_get id jobs.

Definition get_user_jobs (uid : string) (jobs : JobStore) : list Job :=
  filter (fun j => (user_id j =? uid)%string) (values jobs).

(** The assignments of [update_job_status] to the record it found. *)
Definition apply_update (st : JobStatus) (error_message video_id : option string)
           (j : Job) : Job :=
  let j1 := set_status st j in
  let j2 := if truthy error_message then set_error_message error_message j1
            else j1 in
  if truthy video_id then set_video_id video_id j2 else j2.

Definition update_job_status (id : string) (st : JobStatus)
           (error_message video_id : option string) (jobs : JobStore)
  : JobStore :=
  if dict_mem id jobs
  then dict_adjust id (apply_update st error_message video_id) jobs
  else jobs.

(** ** Users *)

Definition UserStore : Type := dict User.

Definition save_user (uid : string) (user_data : User) (users : UserStore)
  : UserStore :=
  dict_set uid user_data users.

Definition get_user (uid : string) (users : UserStore) : option User :=
  dict_get uid users.

(** The first user with that email, with its id ([{**user_data, 'id':
    user_id}]). *)
Fixpoint get_user_by_email (e : string) (users : UserStore)
  : option (string * User) :=
  match users with
  | [] => None
  | (uid, user_data) :: r =>
      if (email user_data =? e)%string then Some (uid, user_data)
      else get_user_by_email e r
  end.

(** ** Tokens: user id to channel id to token *)

Definition TokenStore : Type := dict (dict Token).

Definition save_token (uid ch : string) (token_data : Token)
           (tokens : TokenStore) : TokenStore :=
  let tokens1 := if dict_mem uid tokens then tokens
                 else @dict_set (dict Token) uid [] tokens in
  dict_adjust uid (dict_set ch token_data) tokens1.

Definition get_user_tokens (uid : string) (tokens : TokenStore) : dict Token :=
  match dict_get uid tokens with
  | Some d => d
  | None => []
  end.

Definition get_token (uid ch : string) (tokens : TokenStore) : option Token :=
  dict_get ch (get_user_tokens uid tokens).

(** ** Recent videos: user id to channel id to list *)

Definition RecentStore : Type := dict (dict (list RecentVideo)).

Definition save_recent_videos (uid ch : string) (videos : list RecentVideo)
           (max_entries : Z) (all_recent : RecentStore) : RecentStore :=
  let all1 := if dict_mem uid all_recent then all_recent
              else @dict_set (dict (list RecentVideo)) uid [] all_recent in
  let videos_sorted := slice_to max_entries (sort_by_desc rv_date videos) in
  dict_adjust uid (dict_set ch videos_sorted) all1.

Definition get_channel_recent_videos (uid ch : string) (all_recent : RecentStore)
  : list RecentVideo :=
  match dict_get uid all_recent with
  | Some chans => match dict_get ch chans with Some l => l | None => [] end
  | None => []
  end.

(** ** Failed videos: user id to channel id to list *)

Definition FailedStore : Type := dict (dict (list FailedVideo)).

Definition save_failed_video (uid ch : string) (failed_video : FailedVideo)
           (max_entries : Z) (all_failed : FailedStore) : FailedStore :=
  let all1 := if dict_mem uid all_failed then all_failed
              else @dict_set (dict (list FailedVideo)) uid [] all_failed in
  dict_adjust uid
    (fun chans : dict (list FailedVideo) =>
       let chans1 := if dict_mem ch chans then chans
                     else @dict_set (list FailedVideo) ch [] chans in
       dict_adjust ch
         (fun l => slice_to max_entries
                     (sort_by_desc failure_time (l ++ [failed_video])))
         chans1)
    all1.

Definition get_channel_failed_videos (uid ch : string) (all_failed : FailedStore)
  : list FailedVideo :=
  match dict_get uid all_failed with
  | Some chans => match dict_get ch chans with Some l => l | None => [] end
  | None => []
  end.

End Storage.

(* ------------------------------------------------------------------ *)
(** * [app/youtube/client.py]: the platform as one request sees it *)

Module YouTube.
Import Py.

(** A video as the client reports it: the dictionary built by
    [get_video_status] and by [get_scheduled_videos] (whose [thumbnail]
    key no caller reads and is left out). *)
Record Video : Type := mkVideo {
  v_video_id : string;
  privacy_status : string;
  publish_at : option string;
  title : string;
  description : string
}.

(** The answers of the platform to the client of the current user.
    [videos_list ch] is the list of [videos.list] items the paging loop
    of [get_scheduled_videos] collects on channel [ch];
    [get_video_status ch vid] is [None] when the platform returns no
    item; [get_channels] is the list of channel ids of
    [app.api.youtube.get_channels]. Each may raise. *)
Record Remote : Type := mkRemote {
  videos_list : string -> result (list Video);
  get_video_status : string -> string -> result (option Video);
  get_channels : result (list string);
  update_video_privacy : string -> string -> string -> result unit
}.

(** The filter of [get_scheduled_videos]: private or unlisted, with a
    [publishAt]. *)
Definition is_scheduled_video (v : Video) : bool :=
  str_in (privacy_status v) ["private"; "unlisted"]%string
  && truthy (publish_at v).

Definition get_scheduled_videos (R : Remote) (ch : string)
  : result (list Video) :=
  match videos_list R ch with
  | Ok items => Ok (filter is_scheduled_video items)
  | Raised msg => Raised msg
  end.

End YouTube.

(* ------------------------------------------------------------------ *)
(** * [app/scheduler/job_manager.py]: the backstop *)

Module Scheduler.
Import Py Storage YouTube.

(** What the closure [publish_video] captured when the timer was armed;
    the job id is the key the timer is registered under ([id=job_id]). *)
Record Timer : Type := mkTimer {
  t_user_id : string;
  t_channel_id : string;
  t_video_id : string;
  run_date : Z
}.

(** The process state the backstop acts on: the jobs file, the timers of
    the background scheduler, and the calls of
    [client.update_video_privacy] made so far (channel, video, privacy). *)
Record World : Type := mkWorld {
  jobs : JobStore;
  timers : dict Timer;
  privacy_calls : list (string * string * string)
}.

(** [add_job(..., id=job_id, replace_existing=True)] *)
Definition schedule_publish (uid ch vid : string) (publish_datetime : Z)
           (id : string) (w : World) : World :=
  mkWorld (jobs w)
          (dict_set id (mkTimer uid ch vid publish_datetime) (timers w))
          (privacy_calls w).

(** The body of the nested function [publish_video]. *)
Definition publish_video (R : Remote) (t : Timer) (id : string) (w : World)
  : World :=
  let calls := (privacy_calls w
                ++ [(t_channel_id t, t_video_id t, "public"%string)])%list in
  match update_video_privacy R (t_channel_id t) (t_video_id t) "public" with
  | Ok _ =>
      mkWorld (update_job_status id PUBLISHED None (Some (t_video_id t))
                                 (jobs w))
              (timers w) calls
  | Raised msg =>
      mkWorld (update_job_status id FAILED (Some msg) (Some (t_video_id t))
                                 (jobs w))
              (timers w) calls
  end.

(** The timer of job [id] comes due: the scheduler runs the closure once
    and, the [DateTrigger] having no further run date, drops the timer.
    Nothing happens when no timer is registered under [id]. *)
Definition fire (R : Remote) (id : string) (w : World) : World :=
  match dict_get id (timers w) with
  | None => w
  | Some t =>
      let w' := publish_video R t id w in
      mkWorld (jobs w') (dict_del id (timers w')) (privacy_calls w')
  end.

(** [JobManager.get_job_status]: the stored record with the timer's
    state attached. *)
Record JobView : Type := mkJobView {
  jv_job : Job;
  jv_scheduled : bool;
  jv_next_run_time : option Z
}.

Definition get_job_status (id : string) (w : World) : option JobView :=
  match get_job id (jobs w) with
  | None => None
  | Some job =>
      match dict_get id (timers w) with
      | Some t => Some (mkJobView job true (Some (run_date t)))
      | None => Some (mkJobView job false None)
      end
  end.

End Scheduler.

(* ------------------------------------------------------------------ *)
(** * [app/api/videos.py]: the reconciliation endpoints *)

Module Videos.
Import Py Storage YouTube Scheduler.

(** An element of the list [get_jobs] returns: the job dictionary with
    the keys the endpoint adds to it. [from_youtube] is the provenance
    flag (the key is only present, and true, on entries synthesized from
    the platform's list). *)
Record Entry : Type := mkEntry {
  job : Job;
  video_description : string;
  youtube_privacy : option string;
  youtube_publish_at : option string;
  from_youtube : bool
}.

(** The key of the final sort: [x.get('publish_datetime', '')]. *)
Definition sort_key (e : Entry) : string :=
  match publish_datetime (job e) with
  | Some s => s
  | None => ""%string
  end.

Inductive HTTPException : Type :=
| HTTP_404_NOT_FOUND
| HTTP_403_FORBIDDEN.

(** What [get_job_status] hands back: [job_status or job]. *)
Inductive Response : Type :=
| SchedulerView (jv : JobView)
| SyncedJob (e : Entry).

Section Endpoints.

(** [datetime.fromisoformat], as the instant of the aware datetime it
    returns. [None] stands for a [ValueError] and for a naive result,
    whose comparison with the aware current time raises [TypeError]:
    every call site catches both in the same [try] block. *)
Variable fromisoformat : string -> option Z.

(** The platform during the request, and [datetime.now(timezone.utc)]. *)
Variable R : Remote.
Variable current_time : Z.

(** [datetime.fromisoformat(s.replace('Z', '+00:00'))] on an optional
    string. *)
Definition instant_of (o : option string) : option Z :=
  match o with
  | Some s => fromisoformat (replace_Z s)
  | None => None
  end.

(** The job's own target: [if job.get('publish_datetime'): ...]. *)
Definition job_publish_time (j : Job) : option Z :=
  if truthy (publish_datetime j) then instant_of (publish_datetime j)
  else None.

(** ** [get_jobs] *)

(** Lines 267-308: the status and the inclusion flag, from a fetched
    video status. *)
Definition get_jobs_resolve (j : Job) (v : Video) : JobStatus * bool :=
  let youtube_privacy := privacy_status v in
  if (youtube_privacy =? "public")%string then (PUBLISHED, false)
  else if str_in youtube_privacy ["private"; "unlisted"]%string
          && truthy (publish_at v) then
    match instant_of (publish_at v) with
    | Some scheduled_time =>
        if scheduled_time <=? current_time then (PUBLISHED, false)
        else (SCHEDULED, true)
    | None => (SCHEDULED, true)
    end
  else if str_in youtube_privacy ["private"; "unlisted"]%string then
    match job_publish_time j with
    | Some t =>
        if t >? current_time then (SCHEDULED, true)
        else (UPLOADED, false)
    | None => (UPLOADED, false)
    end
  else (UPLOADED, false).

(** Lines 313-325: the [except] branch of the status fetch. *)
Definition get_jobs_except (j : Job) : JobStatus * bool :=
  match job_publish_time j with
  | Some t =>
      if (t >? current_time)
         && status_in (status j) [SCHEDULED; UPLOADED]
      then (SCHEDULED, true)
      else (status j, false)
  | None => (status j, false)
  end.

(** Lines 326-336: no video id (or no channel id) on the job. *)
Definition get_jobs_no_video (j : Job) : bool :=
  match job_publish_time j with
  | Some t =>
      (t >? current_time)
      && status_in (status j) [SCHEDULED; UPLOADED; PENDING]
  | None => false
  end.

(** Lines 244-336: one iteration of the loop over the jobs, up to the
    inclusion test. *)
Definition get_jobs_job (j : Job) : Entry * bool :=
  let desc :=
    match metadata j with
    | Some m => md_description m
    | None => ""%string
    end in
  let unsynced := mkEntry j desc None None false in
  match video_id j with
  | Some vid =>
      if truthy_str vid && truthy_str (channel_id j) then
        match get_video_status R (channel_id j) vid with
        | Ok (Some v) =>
            let desc' :=
              if negb (truthy_str desc) && truthy_str (description v)
              then description v else desc in
            let (st, inc) := get_jobs_resolve j v in
            (mkEntry (set_status st j) desc'
                     (Some (privacy_status v)) (publish_at v) false,
             inc)
        | Ok None => (unsynced, false)
        | Raised _ =>
            let (st, inc) := get_jobs_except j in
            (mkEntry (set_status st j) desc None None false, inc)
        end
      else (unsynced, get_jobs_no_video j)
  | None => (unsynced, get_jobs_no_video j)
  end.

(** Lines 338-343: [del] of the platform entry of an included job. *)
Definition forget_video (j : Job) (ymap : dict Video) : dict Video :=
  match video_id j with
  | Some vid => if dict_mem vid ymap then dict_del vid ymap else ymap
  | None => ymap
  end.

(** Lines 243-343: the loop, on the list being built and the platform
    map. *)
Fixpoint get_jobs_loop (js : list Job) (synced_jobs : list Entry)
         (ymap : dict Video) : list Entry * dict Video :=
  match js with
  | [] => (synced_jobs, ymap)
  | j :: rest =>
      let (e, is_scheduled_and_not_public) := get_jobs_job j in
      if is_scheduled_and_not_public
      then get_jobs_loop rest (synced_jobs ++ [e]) (forget_video j ymap)
      else get_jobs_loop rest synced_jobs ymap
  end.

(** Lines 226-237: the platform map, channel by channel; a channel
    whose fetch raises adds nothing. *)
Definition fetch_channel (ymap : dict Video) (ch : string) : dict Video :=
  match get_scheduled_videos R ch with
  | Ok scheduled_videos =>
      fold_left (fun m v => dict_set (v_video_id v) v m)
                scheduled_videos ymap
  | Raised _ => ymap
  end.

Definition fetch_channels (channels_to_check : list string) : dict Video :=
  fold_left fetch_channel channels_to_check [].

(** Lines 212-223 *)
Definition channels_to_check (channel_id : option string) : list string :=
  match channel_id with
  | Some ch =>
      if truthy_str ch then [ch]
      else match get_channels R with Ok l => l | Raised _ => [] end
  | None => match get_channels R with Ok l => l | Raised _ => [] end
  end.

(** Lines 347-372: the entry made of a platform video no included job
    accounted for; nothing when it has no future [publish_at]. *)
Definition remote_entry (uid : string) (channel_id : option string)
           (now_iso : string) (kv : string * Video) : list Entry :=
  let (vid, video_data) := kv in
  if truthy (publish_at video_data) then
    match instant_of (publish_at video_data) with
    | Some scheduled_time =>
        if scheduled_time >? current_time then
          [mkEntry
             (mkJob ("youtube_" ++ vid) uid
                    (if truthy channel_id
                     then match channel_id with Some c => c | None => "" end
                     else hd ""%string (channels_to_check channel_id))
                    (Some vid) (title video_data) SCHEDULED
                    (publish_at video_data) now_iso None None)
             (description video_data)
             (Some (privacy_status video_data))
             (publish_at video_data) true]
        else []
    | None => []
    end
  else [].

(** The list before the final sort, and the platform map left over. *)
Definition get_jobs_entries (uid : string) (channel_id : option string)
           (now_iso : string) (store : JobStore) : list Entry :=
  let js := get_user_jobs uid store in
  let ymap := fetch_channels (channels_to_check channel_id) in
  let (synced_jobs, ymap') := get_jobs_loop js [] ymap in
  (synced_jobs ++ flat_map (remote_entry uid channel_id now_iso) ymap')%list.

(** [GET /api/videos/jobs]. [now_iso] is the [created_at] text given to
    synthesized entries. Returns the view and the jobs file as the
    request leaves it. *)
Definition get_jobs (uid : string) (channel_id : option string)
           (now_iso : string) (store : JobStore)
  : list Entry * JobStore :=
  (sort_by sort_key (get_jobs_entries uid channel_id now_iso store),
   store).

(** ** [sync_jobs_with_youtube] *)

(** Lines 472-484 *)
Definition sync_resolve (v : Video) : JobStatus :=
  let youtube_privacy := privacy_status v in
  if (youtube_privacy =? "public")%string then PUBLISHED
  else if (youtube_privacy =? "private")%string && truthy (publish_at v)
  then
    match instant_of (publish_at v) with
    | Some scheduled_time =>
        if scheduled_time <=? current_time then PUBLISHED else SCHEDULED
    | None => SCHEDULED
    end
  else UPLOADED.

(** The status the loop writes for a job of the snapshot, if any. *)
Definition sync_new_status (j : Job) : option JobStatus :=
  match video_id j with
  | Some vid =>
      if truthy_str vid && truthy_str (channel_id j) then
        match get_video_status R (channel_id j) vid with
        | Ok (Some v) =>
            let new_status := sync_resolve v in
            if negb (status_eqb (status j) new_status)
            then Some new_status else None
        | Ok None => None
        | Raised _ => None
        end
      else None
  | None => None
  end.

(** Lines 461-490: the loop over the snapshot [jobs], on the jobs file
    and the counter. *)
Fixpoint sync_loop (js : list Job) (store : JobStore) (synced_count : nat)
  : nat * JobStore :=
  match js with
  | [] => (synced_count, store)
  | j :: rest =>
      match sync_new_status j with
      | Some new_status =>
          sync_loop rest
                    (update_job_status (job_id j) new_status None
                                       (video_id j) store)
                    (S synced_count)
      | None => sync_loop rest store synced_count
      end
  end.

(** [POST /api/videos/jobs/sync]: the count reported as [synced], and
    the jobs file afterwards. *)
Definition sync_jobs_with_youtube (uid : string) (store : JobStore)
  : nat * JobStore :=
  sync_loop (get_user_jobs uid store) store 0%nat.

(** ** [get_job_status] *)

(** Lines 430-442 *)
Definition get_job_status_resolve (v : Video) : JobStatus :=
  let youtube_privacy := privacy_status v in
  if (youtube_privacy =? "public")%string then PUBLISHED
  else if (youtube_privacy =? "private")%string && truthy (publish_at v)
  then
    match instant_of (publish_at v) with
    | Some scheduled_time =>
        if scheduled_time <=? current_time then PUBLISHED else SCHEDULED
    | None => SCHEDULED
    end
  else UPLOADED.

(** Lines 419-447: the local copy of the job after the sync attempt. *)
Definition get_job_status_sync (j : Job) : Entry :=
  let unsynced := mkEntry j ""%string None None false in
  match video_id j with
  | Some vid =>
      if truthy_str vid && truthy_str (channel_id j) then
        match get_video_status R (channel_id j) vid with
        | Ok (Some v) =>
            mkEntry (set_status (get_job_status_resolve v) j) ""%string
                    (Some (privacy_status v)) (publish_at v) false
        | Ok None => unsynced
        | Raised _ => unsynced
        end
      else unsynced
  | None => unsynced
  end.

(** [GET /api/videos/jobs/{job_id}] *)
Definition get_job_status (id uid : string) (w : World)
  : HTTPException + Response :=
  match get_job id (jobs w) with
  | None => inl HTTP_404_NOT_FOUND
  | Some j =>
      if negb (user_id j =? uid)%string then inl HTTP_403_FORBIDDEN
      else
        let synced := get_job_status_sync j in
        match Scheduler.get_job_status id w with
        | Some job_status => inr (SchedulerView job_status)
        | None => inr (SyncedJob synced)
        end
  end.

End Endpoints.

(** ** [schedule_videos], lines 127-153: the record of an uploaded video
    is saved and its backstop armed. [publish_iso] is
    [publish_datetime.isoformat()]. *)
Definition schedule_videos_record (id uid ch vid video_title : string)
           (publish_datetime : Z) (publish_iso created_at : string)
           (md : Metadata) (w : World) : World :=
  let job_data :=
    mkJob id uid ch (Some vid) video_title SCHEDULED (Some publish_iso)
          created_at None (Some md) in
  schedule_publish uid ch vid publish_datetime id
    (mkWorld (save_job id job_data (jobs w)) (timers w) (privacy_calls w)).

End Videos.

(* ------------------------------------------------------------------ *)
(** * HTTP errors of the other endpoints *)

Module Http.

Inductive Error : Type :=
| BAD_REQUEST
| UNAUTHORIZED
| NOT_FOUND
| INTERNAL_SERVER_ERROR (detail : string).

End Http.

(* ------------------------------------------------------------------ *)
(** * [app/youtube/client.py]: [get_recent_videos] *)

Module Client.
Import Py.

(** A [videos.list] item, each field after the default of its [.get]
    (the empty string). *)
Record ApiVideo : Type := mkApiVideo {
  api_id : string;
  api_title : string;
  api_description : string;
  api_published_at : string;
  api_publish_at : string;
  api_privacy_status : string;
  api_upload_status : string;
  api_thumbnail : string
}.

(** Lines 111-145: the dictionary made of one item. *)
Definition recent_entry (video : ApiVideo) : RecentVideo :=
  let published_at := api_published_at video in
  let publish_at := api_publish_at video in
  let video_date := if truthy_str publish_at then publish_at else published_at in
  let privacy_status := api_privacy_status video in
  let upload_status := api_upload_status video in
  let video_status :=
    if (upload_status =? "uploaded")%string then
      if (privacy_status =? "public")%string then "published"%string
      else if str_in privacy_status ["private"; "unlisted"]%string
              && truthy_str publish_at then "scheduled"%string
      else "private"%string
    else upload_status in
  mkRecentVideo (api_id video) (api_title video) (api_description video)
                video_status privacy_status video_date published_at
                (if truthy_str publish_at then Some publish_at else None)
                (api_thumbnail video) "youtube".

(** [items] is what the paging loop collected, or the exception of the
    service. *)
Definition get_recent_videos (items : result (list ApiVideo)) (max_results : Z)
  : result (list RecentVideo) :=
  match items with
  | Ok l => Ok (slice_to max_results (sort_by_desc rv_date (map recent_entry l)))
  | Raised msg => Raised msg
  end.

End Client.

(* ------------------------------------------------------------------ *)
(** * [app/api/videos.py]: the recent and failed lists *)

Module Feeds.
Import Py Storage Http.

(** [GET /api/videos/recent] *)
Definition get_recent_videos (uid ch : string) (tokens : TokenStore)
           (all_recent : RecentStore) : Error + list RecentVideo :=
  if negb (truthy_str ch) then inl BAD_REQUEST
  else match get_token uid ch tokens with
       | None => inl NOT_FOUND
       | Some _ => inr (get_channel_recent_videos uid ch all_recent)
       end.


(** [GET /api/videos/failed] *)
Definition get_failed_videos (uid ch : string) (tokens : TokenStore)
           (all_failed : FailedStore) : Error + list FailedVideo :=
  if negb (truthy_str ch) then inl BAD_REQUEST
  else match get_token uid ch tokens with
       | None => inl NOT_FOUND
       | Some _ => inr (get_channel_failed_videos uid ch all_failed)
       end.

(** Lines 618-623: the failed jobs of the channel that carry a message. *)
Definition is_failed_job (ch : string) (j : Job) : bool :=
  (channel_id j =? ch)%string
  && status_eqb (status j) FAILED
  && truthy (error_message j).

(** Lines 628-635 *)
Definition failed_video_of_job (j : Job) : FailedVideo :=
  mkFailedVideo (video_title j)
                (match publish_datetime j with Some d => d | None => "" end)
                (created_at j)
                (match error_message j with
                 | Some m => m
                 | None => "Unknown error"
                 end)
                (job_id j) (video_id j).

(** Lines 617-641: the list the endpoint returns. *)
Definition failed_videos_of_jobs (uid ch : string) (jobs : JobStore)
  : list FailedVideo :=
  slice_to 20
    (sort_by_desc failure_time
       (map failed_video_of_job
            (filter (is_failed_job ch) (get_user_jobs uid jobs)))).

(** [POST /api/videos/failed/refresh]: the videos returned and the failed
    videos file afterwards. *)
Definition refresh_failed_videos (uid ch : string) (tokens : TokenStore)
           (jobs : JobStore) (all_failed : FailedStore)
  : Error + (list FailedVideo * FailedStore) :=
  if negb (truthy_str ch) then inl BAD_REQUEST
  else match get_token uid ch tokens with
       | None => inl NOT_FOUND
       | Some _ =>
           let failed_videos := failed_videos_of_jobs uid ch jobs in
           inr (failed_videos,
                fold_left (fun st fv => save_failed_video uid ch fv 20 st)
                          failed_videos all_failed)
       end.

End Feeds.

(* ------------------------------------------------------------------ *)
(** * [app/api/auth.py]: signup and login *)

Module Auth.
Import Py Storage Http.

(** [POST /api/auth/signup]. [password_hash] is what [hash_password]
    returned, [uid] the fresh uuid, [now1] and [now2] the two readings of
    the clock. Returns the id and email of the response, and the users
    file afterwards. *)
Definition signup (e password_hash uid now1 now2 : string) (users : UserStore)
  : Error + ((string * string) * UserStore) :=
  match get_user_by_email e users with
  | Some _ => inl BAD_REQUEST
  | None =>
      inr ((uid, e), save_user uid (mkUser e password_hash now1 now2) users)
  end.

(** [POST /api/auth/login]. [verify_password] is the check of
    [app.auth.password] (bcrypt). *)
Definition login (verify_password : string -> string -> bool)
           (e password : string) (users : UserStore)
  : Error + (string * string) :=
  match get_user_by_email e users with
  | None => inl UNAUTHORIZED
  | Some (uid, user) =>
      if negb (verify_password password (password_hash user))
      then inl UNAUTHORIZED
      else inr (uid, email user)
  end.

End Auth.

(* ------------------------------------------------------------------ *)
(** * [app/drive/downloader.py]: the file id of a Drive URL *)

Module Drive.
Import Py.

(** Lines 35-43. The index [[1]] is the piece after the first marker; it
    is there wherever the marker occurs
    ([str_split_has_second_piece]). *)
Definition _extract_file_id (url : string) : option string :=
  if str_contains "/file/d/" url then
    Some (hd ""%string
             (str_split "/" (nth 1 (str_split "/file/d/" url) ""%string)))
  else if str_contains "id=" url then
    Some (hd ""%string
             (str_split "&" (nth 1 (str_split "id=" url) ""%string)))
  else None.

(** The guard of [download_file]: the id to fetch, or the [ValueError]. *)
Definition download_file_id (drive_url : string) : result string :=
  match _extract_file_id drive_url with
  | Some file_id =>
      if truthy_str file_id then Ok file_id
      else Raised "Invalid Google Drive URL"
  | None => Raised "Invalid Google Drive URL"
  end.

End Drive.

(* ------------------------------------------------------------------ *)
(** * [app/json_handler/validator.py] *)

Module Validator.
Import Py.

(** A parsed JSON document; a number is kept as its text. *)
#[warnings="-register-all"]
Inductive JSON : Type :=
| JNull
| JBool (b : bool)
| JNumber (text : string)
| JString (s : string)
| JList (l : list JSON)
| JDict (d : list (string * JSON)).

(** An element of the [errors] list. *)
Inductive Issue : Type :=
| Structural (error : string)
| Invalid (index : nat) (video : JSON) (errors : list string).

Section Validate.

(** The pydantic model [VideoSchedule] and its construction from the
    keys of an object: the model, or the messages of the
    [ValidationError]. *)
Variable VideoSchedule : Type.
Variable construct : dict JSON -> VideoSchedule + list string.

(** Lines 32-44. Unpacking an element that is no object into the
    keyword arguments of [VideoSchedule] raises a [TypeError], which the
    loop does not catch. *)
Fixpoint validate_loop (videos : list JSON) (idx : nat)
         (valid_videos : list VideoSchedule) (errors : list Issue)
  : result (bool * list VideoSchedule * list Issue) :=
  match videos with
  | [] => Ok (negb (length valid_videos =? 0)%nat, valid_videos, errors)
  | video_data :: rest =>
      match video_data with
      | JDict d =>
          match construct d with
          | inl video =>
              validate_loop rest (S idx) (valid_videos ++ [video]) errors
          | inr msgs =>
              validate_loop rest (S idx) valid_videos
                (errors
                 ++ [Invalid idx
                       (match dict_get "title" d with
                        | Some t => t
                        | None => JString "Unknown"
                        end) msgs])
          end
      | _ => Raised "TypeError"
      end
  end.

Definition validate_request (data : JSON)
  : result (bool * list VideoSchedule * list Issue) :=
  match data with
  | JDict d =>
      match dict_get "videos" d with
      | None => Ok (false, [], [Structural "Missing 'videos' field"])
      | Some (JList videos) =>
          if (length videos =? 0)%nat
          then Ok (false, [], [Structural "'videos' array cannot be empty"])
          else validate_loop videos 0 [] []
      | Some _ => Ok (false, [], [Structural "'videos' must be an array"])
      end
  | _ => Ok (false, [], [Structural "Invalid JSON structure. Expected object."])
  end.

End Validate.

End Validator.

(* ------------------------------------------------------------------ *)
(** * A fragment of [datetime.fromisoformat]

    The endpoints are stated for any [fromisoformat]. The examples below
    run them on this fragment: the text [YYYY-MM-DDTHH:MM:SS+00:00] that
    [schedule_videos] writes (and that a trailing [Z] becomes after
    [replace]), read as seconds since the epoch. Other texts are outside
    the fragment and give [None]. *)

Module Iso.

Definition digit (c : ascii) : option Z :=
  let n := Z.of_N (N_of_ascii c) in
  if (48 <=? n) && (n <=? 57) then Some (n - 48) else None.

Fixpoint number (cs : list ascii) (acc : Z) : option Z :=
  match cs with
  | [] => Some acc
  | c :: r =>
      match digit c with
      | Some d => number r (10 * acc + d)
      | None => None
      end
  end.

Definition is_leap (y : Z) : bool :=
  ((y mod 4 =? 0) && negb (y mod 100 =? 0)) || (y mod 400 =? 0).

Definition days_in_month (y m : Z) : Z :=
  if m =? 2 then (if is_leap y then 29 else 28)
  else if (m =? 4) || (m =? 6) || (m =? 9) || (m =? 11) then 30
  else 31.

(** Days between 1970-01-01 and the given date of the proleptic
    Gregorian calendar. *)
Definition days_from_civil (y m d : Z) : Z :=
  let y' := if m <=? 2 then y - 1 else y in
  let era := y' / 400 in
  let yoe := y' - era * 400 in
  let mp := (m + 9) mod 12 in
  let doy := (153 * mp + 2) / 5 + d - 1 in
  let doe := yoe * 365 + yoe / 4 - yoe / 100 + doy in
  era * 146097 + doe - 719468.

Definition utc_instant (y m d hh mm ss : Z) : option Z :=
  if (1 <=? y) && (1 <=? m) && (m <=? 12) && (1 <=? d)
     && (d <=? days_in_month y m) && (hh <=? 23) && (mm <=? 59)
     && (ss <=? 59)
  then Some (days_from_civil y m d * 86400 + hh * 3600 + mm * 60 + ss)
  else None.

Definition fromisoformat (s : string) : option Z :=
  match list_ascii_of_string s with
  | [y1; y2; y3; y4; "-"; m1; m2; "-"; d1; d2; "T"; h1; h2; ":"; n1; n2;
     ":"; s1; s2; "+"; "0"; "0"; ":"; "0"; "0"]%char =>
      match number [y1; y2; y3; y4] 0, number [m1; m2] 0,
            number [d1; d2] 0, number [h1; h2] 0, number [n1; n2] 0,
            number [s1; s2] 0 with
      | Some y, Some m, Some d, Some hh, Some mm, Some ss =>
          utc_instant y m d hh mm ss
      | _, _, _, _, _, _ => None
      end
  | _ => None
  end.

End Iso.

Import Py Storage YouTube Scheduler Videos.

(* ------------------------------------------------------------------ *)
(** * Vocabulary of the properties *)

(** The fields [update_job_status] never assigns. *)
Definition same_other_fields (j j' : Job) : Prop :=
  job_id j' = job_id j /\ user_id j' = user_id j
  /\ channel_id j' = channel_id j /\ video_title j' = video_title j
  /\ publish_datetime j' = publish_datetime j
  /\ created_at j' = created_at j /\ metadata j' = metadata j.

(** What the loop of [sync_jobs_with_youtube] over the snapshot [js] does
    to the record filed under [k]. *)
Definition sync_effect (fromisoformat : string -> option Z) (R : Remote)
           (current_time : Z) (k : string) (js : list Job) (x : Job) : Job :=
  fold_left
    (fun x j =>
       match sync_new_status fromisoformat R current_time j with
       | Some new_status =>
           if (k =? job_id j)%string
           then apply_update new_status None (video_id j) x else x
       | None => x
       end) js x.

(** ** The reconciled view *)

(** A job-derived entry of the view stands for job [j]. *)
Definition in_view (j : Job) (view : list Entry) : Prop :=
  exists e, In e view /\ from_youtube e = false /\ job_id (job e) = job_id j.

(** The order [list.sort] produces: by the string key. *)
Definition key_le (a b : Entry) : Prop :=
  (sort_key a <=? sort_key b)%string = true.

(** The order the design document words: by publish instant, an unknown
    instant after every known one. *)
Definition instant_le (a b : option Z) : bool :=
  match a, b with
  | Some x, Some y => x <=? y
  | _, None => true
  | None, Some _ => false
  end.

Definition sorted_by_instant (fromisoformat : string -> option Z)
           (view : list Entry) : Prop :=
  Sorted (fun a b =>
            instant_le (job_publish_time fromisoformat (job a))
                       (job_publish_time fromisoformat (job b)) = true)
         view.

(** The write-back the design document words for [get_jobs]: a resolved
    status that differs from the stored one is stored. *)
Definition status_written_back (fromisoformat : string -> option Z)
           (R : Remote) (current_time : Z) (uid : string)
           (channel_id : option string) (now_iso : string) (s : JobStore)
  : Prop :=
  forall j, In j (get_user_jobs uid s) ->
    let resolved :=
      status (job (fst (get_jobs_job fromisoformat R current_time j))) in
    resolved <> status j ->
    option_map status
      (get_job (job_id j)
         (snd (get_jobs fromisoformat R current_time uid channel_id now_iso s)))
    = Some resolved.

(** The status fetch of a job with a video id and a channel id. *)
Definition status_fetch (R : Remote) (j : Job) : option (result (option Video)) :=
  match video_id j with
  | Some vid =>
      if truthy_str vid && truthy_str (channel_id j)
      then Some (get_video_status R (channel_id j) vid)
      else None
  | None => None
  end.

(** The remote state of the job could not be fetched: the call raised or
    returned nothing. *)
Definition unreachable (R : Remote) (j : Job) : Prop :=
  status_fetch R j = Some (Ok None)
  \/ exists msg, status_fetch R j = Some (Raised msg).

(** The fallback rule: still scheduled when the job's own target is in the
    future and the stored status is [scheduled] or [uploaded]. *)
Definition fallback_scheduled (fromisoformat : string -> option Z)
           (current_time : Z) (j : Job) : bool :=
  match job_publish_time fromisoformat j with
  | Some t => (t >? current_time) && status_in (status j) [SCHEDULED; UPLOADED]
  | None => false
  end.

(** The design document's wording: every unreachable job is decided by the
    fallback rule. *)
Definition fallback_decides (fromisoformat : string -> option Z)
           (R : Remote) (current_time : Z) (uid : string)
           (channel_id : option string) (now_iso : string) (s : JobStore)
  : Prop :=
  forall j, In j (get_user_jobs uid s) -> unreachable R j ->
    (in_view j (fst (get_jobs fromisoformat R current_time uid channel_id
                              now_iso s))
     <-> fallback_scheduled fromisoformat current_time j = true).

(** Two platforms that answer alike except that the list of channel [ch]
    raises on the first and is empty on the second. *)
Definition degraded_channel (ch : string) (R R' : Remote) : Prop :=
  (exists msg, videos_list R ch = Raised msg)
  /\ videos_list R' ch = Ok []
  /\ (forall c, c <> ch -> videos_list R' c = videos_list R c)
  /\ (forall c v, get_video_status R' c v = get_video_status R c v)
  /\ get_channels R' = get_channels R.

(** ** The precedence of the design document *)

Definition private_or_unlisted (v : Video) : bool :=
  str_in (privacy_status v) ["private"; "unlisted"]%string.

(** Rules a to d of the reconciliation engine, for a job with a fetched
    remote state; [None] where the document is silent (a privacy setting
    outside the three it names, or a scheduled-publish text that is no
    instant). *)
Definition documented_status (fromisoformat : string -> option Z)
           (current_time : Z) (j : Job) (v : Video) : option JobStatus :=
  if (privacy_status v =? "public")%string then Some PUBLISHED
  else if private_or_unlisted v then
    if truthy (publish_at v) then
      match instant_of fromisoformat (publish_at v) with
      | Some t => if current_time <? t then Some SCHEDULED else Some PUBLISHED
      | None => None
      end
    else
      match job_publish_time fromisoformat j with
      | Some t => if current_time <? t then Some SCHEDULED else Some UPLOADED
      | None => Some UPLOADED
      end
  else None.

(** ** The life cycle of the design document *)

Definition terminal (st : JobStatus) : bool :=
  match st with
  | PUBLISHED | FAILED => true
  | _ => false
  end.

Definition rank (st : JobStatus) : nat :=
  match st with
  | PENDING => 0
  | UPLOADED => 1
  | SCHEDULED => 2
  | PUBLISHED => 3
  | FAILED => 4
  end.

(** A move the document allows: none, forward along
    pending, uploaded, scheduled, published, or to failed from a status
    that is not terminal. *)
Definition forward (a b : JobStatus) : bool :=
  status_eqb a b
  || (negb (terminal a)
      && (status_eqb b FAILED || (rank a <? rank b)%nat)).

(** The operations of the core that write the jobs file. *)
Inductive Op : Type :=
| Create (id uid ch vid video_title : string) (publish_datetime : Z)
         (publish_iso created_at : string) (md : Metadata)
| SyncAll (uid : string)
| Fire (id : string).

(** The platform and the clock at the time of one operation. *)
Record Env : Type := mkEnv {
  env_remote : Remote;
  env_now : Z
}.

Definition run_op (fromisoformat : string -> option Z) (env : Env) (op : Op)
           (w : World) : World :=
  match op with
  | Create id uid ch vid video_title publish_datetime publish_iso created_at md =>
      schedule_videos_record id uid ch vid video_title publish_datetime
                             publish_iso created_at md w
  | SyncAll uid =>
      mkWorld (snd (sync_jobs_with_youtube fromisoformat (env_remote env)
                                           (env_now env) uid (jobs w)))
              (timers w) (privacy_calls w)
  | Fire id => fire (env_remote env) id w
  end.

Definition run (fromisoformat : string -> option Z) (ops : list (Env * Op))
           (w : World) : World :=
  fold_left (fun w eo => run_op fromisoformat (fst eo) (snd eo) w) ops w.

(** The document's invariant: whatever the operations, the stored status of
    a job only makes allowed moves. *)
Definition only_forward (fromisoformat : string -> option Z) : Prop :=
  forall ops w k j j',
    get_job k (jobs w) = Some j ->
    get_job k (jobs (run fromisoformat ops w)) = Some j' ->
    forward (status j) (status j') = true.

(* ------------------------------------------------------------------ *)
(** * Inputs of the examples *)

Module Ex.

(** 2030-01-01T00:00:00 UTC *)
Definition now : Z := 1893456000.

Definition md : Metadata := mkMetadata "about" ["tag"]%string "22".

Definition mk (id vid : string) (st : JobStatus) (target : option string)
  : Job :=
  mkJob id "u1" "c1" (Some vid) "First" st target
        "2029-12-01T00:00:00+00:00" None (Some md).

(** A job scheduled for June 2030, after [now]. *)
Definition job1 : Job :=
  mk "j1" "v1" SCHEDULED (Some "2030-06-01T00:00:00+00:00"%string).

(** A job whose own target, June 2029, has passed. *)
Definition job_past : Job :=
  mk "j1" "v1" SCHEDULED (Some "2029-06-01T00:00:00+00:00"%string).

(** A job record without [publish_datetime]. *)
Definition job_nodate : Job := mk "j2" "v2" SCHEDULED None.

(** A job the backstop marked [failed]. *)
Definition job_failed : Job :=
  set_error_message (Some "Privacy update error: backend"%string)
    (mk "j1" "v1" FAILED (Some "2029-06-01T00:00:00+00:00"%string)).

Definition video (vid privacy : string) (at_ : option string) : Video :=
  mkVideo vid privacy at_ "First" "".

Definition june : option string := Some "2030-06-01T00:00:00Z"%string.

(** A platform that answers every list and every status fetch alike. *)
Definition remote (list : result (list Video))
           (status : result (option Video)) (privacy : result unit)
  : Remote :=
  mkRemote (fun _ => list) (fun _ _ => status) (Ok ["c1"%string])
           (fun _ _ _ => privacy).

Definition store1 : JobStore := [("j1"%string, job1)].
Definition store_past : JobStore := [("j1"%string, job_past)].
Definition store2 : JobStore := [("j1"%string, job1); ("j2"%string, job_nodate)].
Definition store_failed : JobStore := [("j1"%string, job_failed)].

Definition timer1 : Timer := mkTimer "u1" "c1" "v1" 1906502400.

Definition world1 : World := mkWorld store1 [("j1"%string, timer1)] [].
Definition world_failed : World := mkWorld store_failed [] [].

End Ex.

(** Well-formedness of a store written out in full. *)
Ltac store_wf :=
  split; [repeat constructor; simpl; tauto | repeat constructor].

(* ------------------------------------------------------------------ *)
(** * Facts about dictionaries *)

Section DictFacts.
Context {V : Type}.
Implicit Types (d : dict V) (k : string).

Lemma dict_mem_get k d :
  dict_mem k d = true <-> exists v, dict_get k d = Some v.
Proof.
  unfold dict_mem. destruct (dict_get k d) as [v|]; split.
  - eauto.
  - reflexivity.
  - discriminate.
  - intros [v Hv]. discriminate.
Qed.

Lemma dict_get_In k d v : dict_get k d = Some v -> In (k, v) d.
Proof.
  induction d as [|[k' v'] r IH]; simpl; [discriminate|].
  destruct (String.eqb_spec k' k) as [->|Hne].
  - intros [= ->]. now left.
  - intros H. right. now apply IH.
Qed.

Lemma dict_get_None_notin k d : dict_get k d = None -> ~ In k (keys d).
Proof.
  induction d as [|[k' v'] r IH]; simpl; [tauto|].
  destruct (String.eqb_spec k' k) as [->|Hne]; [discriminate|].
  intros H [E|HI]; [congruence|]. now apply IH.
Qed.

Lemma In_dict_get k v d : dict_wf d -> In (k, v) d -> dict_get k d = Some v.
Proof.
  unfold dict_wf.
  induction d as [|[k' v'] r IH]; simpl; [tauto|].
  intros Hnd [E|HI].
  - inversion E; subst. now rewrite String.eqb_refl.
  - inversion Hnd as [|? ? Hnotin Hnd']; subst.
    destruct (String.eqb_spec k' k) as [->|Hne].
    + exfalso. apply Hnotin. change k with (fst (k, v)).
      now apply in_map.
    + now apply IH.
Qed.

Lemma dict_adjust_keys k f d : keys (dict_adjust k f d) = keys d.
Proof.
  induction d as [|[k' v'] r IH]; simpl; [reflexivity|].
  destruct (k' =? k)%string; simpl; [reflexivity|]. now rewrite IH.
Qed.

Lemma dict_get_adjust_same k f d :
  dict_get k (dict_adjust k f d) = option_map f (dict_get k d).
Proof.
  induction d as [|[k' v'] r IH]; simpl; [reflexivity|].
  destruct (String.eqb_spec k' k) as [->|Hne]; simpl.
  - now rewrite String.eqb_refl.
  - destruct (String.eqb_spec k' k); [contradiction|]. exact IH.
Qed.

Lemma dict_get_adjust_other k k0 f d :
  k0 <> k -> dict_get k0 (dict_adjust k f d) = dict_get k0 d.
Proof.
  intros Hne.
  induction d as [|[k' v'] r IH]; simpl; [reflexivity|].
  destruct (String.eqb_spec k' k) as [->|Hne']; simpl.
  - destruct (String.eqb_spec k k0); [congruence|reflexivity].
  - destruct (String.eqb_spec k' k0); [reflexivity|exact IH].
Qed.

Lemma dict_adjust_absent k f d :
  dict_get k d = None -> dict_adjust k f d = d.
Proof.
  induction d as [|[k' v'] r IH]; simpl; [reflexivity|].
  destruct (k' =? k)%string; [discriminate|].
  intros H. now rewrite IH.
Qed.

(** With distinct keys, the mutation of one slot is a map over the
    bindings. *)
Lemma dict_adjust_map k f d :
  dict_wf d ->
  dict_adjust k f d
  = map (fun kv => if (fst kv =? k)%string then (fst kv, f (snd kv)) else kv) d.
Proof.
  unfold dict_wf.
  induction d as [|[k' v'] r IH]; simpl; [reflexivity|].
  intros Hnd. inversion Hnd as [|? ? Hnotin Hnd']; subst.
  destruct (String.eqb_spec k' k) as [->|Hne].
  - f_equal. clear IH Hnd Hnd'.
    induction r as [|[k2 v2] r IH]; simpl; [reflexivity|].
    destruct (String.eqb_spec k2 k) as [->|Hne].
    + exfalso. apply Hnotin. now left.
    + f_equal. apply IH. intros HI. apply Hnotin. now right.
  - f_equal. now apply IH.
Qed.

Lemma dict_set_keys_in k v d :
  forall k0, In k0 (keys (dict_set k v d)) <-> k0 = k \/ In k0 (keys d).
Proof.
  induction d as [|[k' v'] r IH]; simpl; intros k0.
  - intuition congruence.
  - destruct (String.eqb_spec k' k) as [->|Hne]; simpl.
    + intuition congruence.
    + rewrite IH. intuition congruence.
Qed.

Lemma dict_set_wf k v d : dict_wf d -> dict_wf (dict_set k v d).
Proof.
  unfold dict_wf.
  induction d as [|[k' v'] r IH]; simpl; intros Hnd.
  - constructor; [simpl; tauto|constructor].
  - inversion Hnd as [|? ? Hnotin Hnd']; subst.
    destruct (String.eqb_spec k' k) as [->|Hne]; simpl.
    + now constructor.
    + constructor; [|now apply IH].
      intros HI. apply dict_set_keys_in in HI as [E|HI]; congruence.
Qed.

Lemma dict_del_keys_in k d :
  forall k0, In k0 (keys (dict_del k d)) -> In k0 (keys d).
Proof.
  induction d as [|[k' v'] r IH]; simpl; intros k0; [tauto|].
  destruct (k' =? k)%string; simpl; [tauto|].
  intros [E|HI]; [now left|right; now apply IH].
Qed.

Lemma dict_del_wf k d : dict_wf d -> dict_wf (dict_del k d).
Proof.
  unfold dict_wf.
  induction d as [|[k' v'] r IH]; simpl; intros Hnd; [constructor|].
  inversion Hnd as [|? ? Hnotin Hnd']; subst.
  destruct (k' =? k)%string; simpl; [assumption|].
  constructor; [|now apply IH].
  intros HI. apply Hnotin. now apply dict_del_keys_in in HI.
Qed.

Lemma dict_del_notin k d : dict_wf d -> ~ In k (keys (dict_del k d)).
Proof.
  unfold dict_wf.
  induction d as [|[k' v'] r IH]; simpl; intros Hnd; [tauto|].
  inversion Hnd as [|? ? Hnotin Hnd']; subst.
  destruct (String.eqb_spec k' k) as [->|Hne]; simpl; [assumption|].
  intros [E|HI]; [congruence|]. now apply IH.
Qed.

Lemma dict_get_del_same k d : dict_wf d -> dict_get k (dict_del k d) = None.
Proof.
  intros Hwf. destruct (dict_get k (dict_del k d)) as [v|] eqn:E; [|reflexivity].
  exfalso. apply (dict_del_notin k d Hwf).
  apply dict_get_In in E. change k with (fst (k, v)). now apply in_map.
Qed.

End DictFacts.

(* ------------------------------------------------------------------ *)
(** * The job store *)

Lemma apply_update_fields st em vid j :
  same_other_fields j (apply_update st em vid j)
  /\ status (apply_update st em vid j) = st
  /\ error_message (apply_update st em vid j)
     = (if truthy em then em else error_message j)
  /\ video_id (apply_update st em vid j)
     = (if truthy vid then vid else video_id j).
Proof.
  unfold apply_update, same_other_fields.
  destruct (truthy em), (truthy vid); simpl; repeat split; reflexivity.
Qed.

Lemma update_job_status_adjust id st em vid s :
  update_job_status id st em vid s
  = dict_adjust id (apply_update st em vid) s.
Proof.
  unfold update_job_status, dict_mem.
  destruct (dict_get id s) eqn:E; [reflexivity|].
  symmetry. now apply dict_adjust_absent.
Qed.

Lemma update_job_status_found id st em vid s j :
  get_job id s = Some j ->
  get_job id (update_job_status id st em vid s)
  = Some (apply_update st em vid j).
Proof.
  intros Hj. rewrite update_job_status_adjust. unfold get_job in *.
  now rewrite dict_get_adjust_same, Hj.
Qed.

Lemma update_job_status_others id st em vid s k :
  k <> id -> get_job k (update_job_status id st em vid s) = get_job k s.
Proof.
  intros Hk. rewrite update_job_status_adjust.
  now apply dict_get_adjust_other.
Qed.

(** C10. [update_job_status] on an existing job assigns [status], assigns
    [error_message] and [video_id] only when the argument is truthy (so a
    stored error message is never cleared), and leaves every other field of
    the job, every other job and the order of the store as they were; on an
    absent job id the store is returned unchanged. *)
Theorem update_job_status_frame
        (id : string) (st : JobStatus) (em vid : option string) (s : JobStore) :
  (forall j, get_job id s = Some j ->
     exists j', get_job id (update_job_status id st em vid s) = Some j'
       /\ same_other_fields j j'
       /\ status j' = st
       /\ error_message j' = (if truthy em then em else error_message j)
       /\ video_id j' = (if truthy vid then vid else video_id j)
       /\ (truthy (error_message j) = true ->
           truthy (error_message j') = true))
  /\ (forall k, k <> id ->
        get_job k (update_job_status id st em vid s) = get_job k s)
  /\ keys (update_job_status id st em vid s) = keys s
  /\ (get_job id s = None -> update_job_status id st em vid s = s).
Proof.
  split; [|split; [|split]].
  - intros j Hj. exists (apply_update st em vid j).
    split; [now apply update_job_status_found|].
    destruct (apply_update_fields st em vid j) as (Hs & Hst & Hem & Hvid).
    repeat split; try assumption; try apply Hs.
    rewrite Hem. now destruct (truthy em) eqn:E.
  - intros k Hk. now apply update_job_status_others.
  - rewrite update_job_status_adjust. apply dict_adjust_keys.
  - rewrite update_job_status_adjust. unfold get_job.
    apply dict_adjust_absent.
Qed.

Lemma update_job_status_wf id st em vid s :
  wf_store s -> wf_store (update_job_status id st em vid s).
Proof.
  intros [Hnd Hid]. rewrite update_job_status_adjust. split.
  - unfold dict_wf. now rewrite dict_adjust_keys.
  - rewrite dict_adjust_map by assumption.
    rewrite Forall_forall in *. intros kv Hin.
    apply in_map_iff in Hin as ([k j] & <- & Hin).
    specialize (Hid _ Hin). simpl in *.
    destruct (k =? id)%string; simpl; [|assumption].
    destruct (apply_update_fields st em vid j) as ((-> & _) & _).
    assumption.
Qed.

Lemma wf_store_unique s k j j' :
  wf_store s -> In (k, j) s -> In j' (values s) -> job_id j' = k -> j' = j.
Proof.
  intros [Hnd Hid] Hin Hin' Hk.
  apply in_map_iff in Hin' as ([k' j2] & E & Hin'). simpl in E. subst j2.
  rewrite Forall_forall in Hid. pose proof (Hid _ Hin') as E. simpl in E.
  assert (k' = k) by congruence. subst k'.
  apply (In_dict_get _ _ _ Hnd) in Hin, Hin'. congruence.
Qed.

(* ------------------------------------------------------------------ *)
(** * [sync_jobs_with_youtube] *)

Section Sync.
Variable fromisoformat : string -> option Z.
Variable R : Remote.
Variable current_time : Z.

Local Abbreviation new_status_of := (sync_new_status fromisoformat R current_time).
Local Abbreviation loop := (sync_loop fromisoformat R current_time).
Local Abbreviation effect := (sync_effect fromisoformat R current_time).

Lemma sync_loop_cons j rest s c :
  loop (j :: rest) s c
  = match new_status_of j with
    | Some new_status =>
        loop rest (update_job_status (job_id j) new_status None (video_id j) s)
             (S c)
    | None => loop rest s c
    end.
Proof. reflexivity. Qed.

Lemma sync_effect_cons k j rest x :
  effect k (j :: rest) x
  = effect k rest
      (match new_status_of j with
       | Some new_status =>
           if (k =? job_id j)%string
           then apply_update new_status None (video_id j) x else x
       | None => x
       end).
Proof. reflexivity. Qed.

(** The counter only depends on the snapshot. *)
Lemma sync_loop_count js : forall s c,
  fst (loop js s c)
  = (c + length (filter (fun j => match new_status_of j with
                                  | Some _ => true | None => false end) js))%nat.
Proof.
  induction js as [|j rest IH]; intros s c.
  - simpl. lia.
  - rewrite sync_loop_cons. cbn [filter].
    destruct (new_status_of j); rewrite IH; simpl; lia.
Qed.

Lemma sync_loop_store js : forall s c,
  dict_wf s ->
  snd (loop js s c) = map (fun kv => (fst kv, effect (fst kv) js (snd kv))) s.
Proof.
  induction js as [|j rest IH]; intros s c Hwf.
  - simpl. rewrite <- (map_id s) at 1. apply map_ext. now intros [k x].
  - rewrite sync_loop_cons.
    destruct (new_status_of j) as [ns|] eqn:E.
    + rewrite IH.
      * rewrite update_job_status_adjust, dict_adjust_map by assumption.
        rewrite map_map. apply map_ext. intros [k x].
        cbn [fst snd]. rewrite sync_effect_cons, E.
        rewrite (String.eqb_sym k (job_id j)).
        destruct (job_id j =? k)%string; reflexivity.
      * unfold dict_wf. rewrite update_job_status_adjust, dict_adjust_keys.
        exact Hwf.
    + rewrite IH by assumption. apply map_ext. intros [k x].
      cbn [fst snd]. now rewrite sync_effect_cons, E.
Qed.

(** Once the resolved status is written, the job calls for no write. *)
Lemma sync_new_status_settled j ns :
  new_status_of j = Some ns ->
  new_status_of (apply_update ns None (video_id j) j) = None.
Proof.
  unfold sync_new_status. destruct (video_id j) as [vid|] eqn:Ev; [|discriminate].
  destruct (truthy_str vid && truthy_str (channel_id j)) eqn:Et; [|discriminate].
  destruct (get_video_status R (channel_id j) vid) as [[v|]|] eqn:Eg;
    try discriminate.
  destruct (negb (status_eqb (status j) _)) eqn:Es; [|discriminate].
  intros [= <-].
  apply andb_true_iff in Et as [Et1 Et2].
  unfold apply_update. simpl. rewrite Et1. simpl. rewrite Et1, Et2. simpl.
  rewrite Eg. unfold status_eqb.
  destruct (JobStatus_eq_dec _ _) as [|n]; [reflexivity|now elim n].
Qed.

Lemma sync_effect_own k j0 js :
(forall j, In j js -> job_id j = k -> j = j0) ->
forall x,
  x = j0 \/ (exists ns, new_status_of j0 = Some ns
                        /\ x = apply_update ns None (video_id j0) j0) ->
  (In j0 js -> job_id j0 = k -> new_status_of (effect k js x) = None)
  /\ (new_status_of x = None -> new_status_of (effect k js x) = None)
  /\ user_id (effect k js x) = user_id j0
  /\ video_id (effect k js x) = video_id j0
  /\ channel_id (effect k js x) = channel_id j0.
Proof.
induction js as [|j rest IH]; intros Hown x Hx.
- simpl. repeat split; try tauto;
    (destruct Hx as [->|(ns & _ & ->)]; [reflexivity|]);
    destruct (apply_update_fields ns None (video_id j0) j0)
      as ((_ & Hu & Hc & _) & _ & _ & Hv); try assumption.
  rewrite Hv. now destruct (truthy (video_id j0)).
- assert (Hrest : forall j', In j' rest -> job_id j' = k -> j' = j0)
    by (intros j' Hj'; apply Hown; now right).
  rewrite sync_effect_cons.
  destruct (new_status_of j) as [ns|] eqn:E.
  + destruct (String.eqb_spec k (job_id j)) as [Hk|Hk].
    * assert (j = j0) by (apply Hown; [now left|congruence]). subst j.
      assert (Hx' : apply_update ns None (video_id j0) x
                    = apply_update ns None (video_id j0) j0).
      { destruct Hx as [->|(ns' & E' & ->)]; [reflexivity|].
        assert (ns' = ns) by congruence. subst ns'.
        unfold apply_update. simpl. destruct (truthy (video_id j0)); reflexivity. }
      rewrite Hx'.
      destruct (IH Hrest (apply_update ns None (video_id j0) j0))
        as (_ & H2 & H3); [right; eauto|].
      pose proof (sync_new_status_settled _ _ E) as Hs.
      repeat split; auto; apply H3.
    * destruct (IH Hrest x Hx) as (H1 & H2 & H3).
      repeat split; auto; try apply H3.
      intros [->|Hin] Hk'; [congruence|auto].
  + destruct (IH Hrest x Hx) as (H1 & H2 & H3).
    repeat split; auto; try apply H3.
    intros [->|Hin] Hk'; [|auto].
    apply H2. destruct Hx as [->|(ns & E' & _)]; congruence.
Qed.

(** A job that calls for no write and whose remote state was fetched
    already has the resolved status. *)
Lemma sync_new_status_None_fetched x v :
new_status_of x = None ->
status_fetch R x = Some (Ok (Some v)) ->
status x = sync_resolve fromisoformat current_time v.
Proof.
unfold sync_new_status, status_fetch.
destruct (video_id x) as [vid|]; [|discriminate].
destruct (truthy_str vid && truthy_str (channel_id x)); [|discriminate].
intros Hn [= Hf]. rewrite Hf in Hn. unfold status_eqb in Hn.
destruct (JobStatus_eq_dec (status x) _) as [E|]; [exact E|discriminate].
Qed.

(** After the sync, every job of the user whose remote state was fetched
    has the status resolved from that state, whatever it had before. *)
Lemma sync_stores_resolved_status uid s k j v :
wf_store s ->
get_job k s = Some j ->
user_id j = uid ->
status_fetch R j = Some (Ok (Some v)) ->
exists j',
  get_job k (snd (sync_jobs_with_youtube fromisoformat R current_time uid s))
  = Some j'
  /\ status j' = sync_resolve fromisoformat current_time v.
Proof.
intros Hwf Hj Hu Hf. unfold sync_jobs_with_youtube.
rewrite sync_loop_store by apply Hwf.
apply dict_get_In in Hj.
assert (Hk : job_id j = k).
{ destruct Hwf as [_ Hid]. rewrite Forall_forall in Hid. exact (Hid _ Hj). }
destruct (sync_effect_own k j (get_user_jobs uid s)) with (x := j)
  as (H1 & _ & _ & Hv & Hc).
- intros j' Hj' Hk'. apply filter_In in Hj' as [Hj' _].
  eapply wf_store_unique; eauto.
- now left.
- exists (effect k (get_user_jobs uid s) j). split.
  + apply In_dict_get.
    * unfold dict_wf, keys. rewrite map_map. simpl. apply Hwf.
    * apply in_map_iff. exists (k, j). now split.
  + apply sync_new_status_None_fetched.
    * apply H1; [|exact Hk]. apply filter_In. split.
      -- change j with (snd (k, j)). now apply in_map.
      -- subst uid. apply String.eqb_refl.
    * unfold status_fetch in *. now rewrite Hv, Hc.
Qed.

(** C7. With the remote state and the current time fixed, a second
    [sync_jobs_with_youtube] right after a first one reports no changed
    job. The store is one the program writes: distinct keys, each record
    filed under its own job id. *)
Theorem sync_twice_changes_nothing (uid : string) (s : JobStore) :
  wf_store s ->
  fst (sync_jobs_with_youtube fromisoformat R current_time uid
         (snd (sync_jobs_with_youtube fromisoformat R current_time uid s)))
  = 0%nat.
Proof.
  intros Hwf. unfold sync_jobs_with_youtube.
  rewrite sync_loop_count. simpl.
  rewrite sync_loop_store by apply Hwf.
  match goal with |- length ?l = _ => destruct l as [|j1 l'] eqn:El end;
    [reflexivity|exfalso].
  assert (Hin : In j1 (j1 :: l')) by now left.
  rewrite <- El in Hin. clear El l'.
  apply filter_In in Hin as [Hin Hns].
  unfold get_user_jobs in Hin at 1.
  apply filter_In in Hin as [Hin Hu].
  unfold values in Hin. rewrite map_map in Hin. simpl in Hin.
  apply in_map_iff in Hin as ([k j0] & E & Hin). simpl in E.
  destruct (sync_effect_own k j0 (get_user_jobs uid s)) with (x := j0)
    as (H1 & H2 & H3 & _).
  - intros j Hj Hk. apply filter_In in Hj as [Hj _].
    eapply wf_store_unique; eauto.
  - now left.
  - rewrite E in H1, H2, H3.
    assert (Hk : job_id j0 = k).
    { destruct Hwf as [_ Hid]. rewrite Forall_forall in Hid.
      exact (Hid _ Hin). }
    rewrite H1 in Hns; [discriminate| |exact Hk].
    apply filter_In. split.
    + change j0 with (snd (k, j0)). now apply in_map.
    + congruence.
Qed.

End Sync.

(* ------------------------------------------------------------------ *)
(** * The stable sort *)

Section SortFacts.
Context {A : Type} (key : A -> string).

Local Abbreviation le := (fun a b : A => (key a <=? key b)%string = true).

Lemma leb_false_flip (s1 s2 : string) :
  (s1 <=? s2)%string = false -> (s2 <=? s1)%string = true /\ s1 <> s2.
Proof.
  intros H. split.
  - destruct (String.leb_total s1 s2) as [E|E]; [congruence|exact E].
  - intros ->. destruct (String.leb_total s2 s2); congruence.
Qed.

Lemma insert_by_perm a l : Permutation (a :: l) (insert_by key a l).
Proof.
  induction l as [|b r IH]; simpl; [reflexivity|].
  destruct (key a <=? key b)%string; [reflexivity|].
  rewrite perm_swap. now constructor.
Qed.

Lemma sort_by_perm l : Permutation l (sort_by key l).
Proof.
  induction l as [|a r IH]; simpl; [constructor|].
  rewrite <- insert_by_perm. now constructor.
Qed.

Lemma insert_by_hd a b l :
  le b a -> HdRel le b l -> HdRel le b (insert_by key a l).
Proof.
  intros Hba Hhd. destruct l as [|c r]; simpl.
  - now constructor.
  - destruct (key a <=? key c)%string; constructor; [assumption|].
    now inversion Hhd.
Qed.

Lemma insert_by_sorted a l : Sorted le l -> Sorted le (insert_by key a l).
Proof.
  induction l as [|b r IH]; simpl; intros Hs.
  - repeat constructor.
  - destruct (key a <=? key b)%string eqn:E.
    + constructor; [assumption|now constructor].
    + inversion Hs as [|? ? Hr Hhd]; subst.
      constructor; [now apply IH|].
      apply insert_by_hd; [|assumption].
      now apply leb_false_flip in E.
Qed.

Lemma sort_by_sorted l : Sorted le (sort_by key l).
Proof.
  induction l as [|a r IH]; simpl; [constructor|].
  now apply insert_by_sorted.
Qed.

(** Stability: elements with the same key keep their order. *)
Lemma insert_by_stable k a l :
  filter (fun x => (key x =? k)%string) (insert_by key a l)
  = filter (fun x => (key x =? k)%string) (a :: l).
Proof.
  induction l as [|b r IH]; [reflexivity|].
  cbn [insert_by]. destruct (key a <=? key b)%string eqn:E; [reflexivity|].
  apply leb_false_flip in E as [_ Hne].
  cbn [filter] in *. rewrite IH.
  destruct (String.eqb_spec (key a) k) as [Ea|Ea];
    destruct (String.eqb_spec (key b) k) as [Eb|Eb];
    try reflexivity.
  congruence.
Qed.

Lemma sort_by_stable k l :
  filter (fun x => (key x =? k)%string) (sort_by key l)
  = filter (fun x => (key x =? k)%string) l.
Proof.
  induction l as [|a r IH]; [reflexivity|].
  cbn [sort_by]. rewrite insert_by_stable. cbn [filter]. now rewrite IH.
Qed.

End SortFacts.

(* ------------------------------------------------------------------ *)
(** * [get_jobs] *)

Section GetJobs.
Variable fromisoformat : string -> option Z.
Variable R : Remote.
Variable current_time : Z.

Local Abbreviation step := (get_jobs_job fromisoformat R current_time).
Local Abbreviation loop := (get_jobs_loop fromisoformat R current_time).

(** The job-derived part of the list: the entries of the included jobs,
    in the order of the snapshot. *)
Lemma get_jobs_loop_entries js : forall acc ymap,
  fst (loop js acc ymap)
  = (acc ++ map fst (filter snd (map step js)))%list.
Proof.
  induction js as [|j rest IH]; intros acc ymap.
  - simpl. now rewrite app_nil_r.
  - cbn [get_jobs_loop map filter].
    destruct (step j) as [e inc]. destruct inc; cbn [snd fst map].
    + rewrite IH, <- app_assoc. reflexivity.
    + apply IH.
Qed.

Lemma get_jobs_job_provenance j :
  from_youtube (fst (step j)) = false
  /\ job_id (job (fst (step j))) = job_id j
  /\ job (fst (step j)) = set_status (status (job (fst (step j)))) j.
Proof.
  unfold get_jobs_job.
  assert (Hs : j = set_status (status j) j) by now destruct j.
  destruct (video_id j) as [vid|]; [|now repeat split].
  destruct (truthy_str vid && truthy_str (channel_id j)); [|now repeat split].
  destruct (get_video_status R (channel_id j) vid) as [[v|]|msg].
  - destruct (get_jobs_resolve _ _ _ _) as [st inc]. now repeat split.
  - now repeat split.
  - destruct (get_jobs_except _ _ _) as [st inc]. now repeat split.
Qed.

Lemma remote_entry_provenance uid channel_id now_iso kv e :
  In e (remote_entry fromisoformat R current_time uid channel_id now_iso kv) ->
  from_youtube e = true /\ video_id (job e) = Some (fst kv).
Proof.
  unfold remote_entry. destruct kv as [vid v].
  destruct (truthy (publish_at v)); [|contradiction].
  destruct (instant_of _ _) as [t|]; [|contradiction].
  destruct (t >? current_time); [|contradiction].
  intros [<-|[]]. now split.
Qed.

(** The job-derived entries of the list before the sort. *)
Lemma get_jobs_entries_job_derived uid channel_id now_iso s e :
  In e (get_jobs_entries fromisoformat R current_time uid channel_id now_iso s)
  /\ from_youtube e = false
  <-> exists j, In j (get_user_jobs uid s) /\ step j = (e, true).
Proof.
  unfold get_jobs_entries.
  destruct (loop _ _ _) as [synced ymap'] eqn:El.
  pose proof (get_jobs_loop_entries (get_user_jobs uid s) []
                (fetch_channels R (channels_to_check R channel_id))) as Hl.
  rewrite El in Hl. simpl in Hl. subst synced.
  split.
  - intros [Hin Hprov]. apply in_app_or in Hin as [Hin|Hin].
    + apply in_map_iff in Hin as ([e' inc] & <- & Hin).
      apply filter_In in Hin as [Hin Hinc]. simpl in Hinc. subst inc.
      apply in_map_iff in Hin as (j & Ej & Hj). eauto.
    + apply in_flat_map in Hin as (kv & _ & Hin).
      apply remote_entry_provenance in Hin as [Hin _]. congruence.
  - intros (j & Hj & Ej). split.
    + apply in_or_app. left. apply in_map_iff. exists (e, true).
      split; [reflexivity|]. apply filter_In. split; [|reflexivity].
      apply in_map_iff. eauto.
    + pose proof (get_jobs_job_provenance j) as [Hp _].
      now rewrite Ej in Hp.
Qed.

Lemma get_jobs_view_In uid channel_id now_iso s e :
  In e (fst (get_jobs fromisoformat R current_time uid channel_id now_iso s))
  <-> In e (get_jobs_entries fromisoformat R current_time uid channel_id
                             now_iso s).
Proof.
  unfold get_jobs. cbn [fst]. split; intros H.
  - eapply Permutation_in; [symmetry; apply sort_by_perm|exact H].
  - eapply Permutation_in; [apply sort_by_perm|exact H].
Qed.

(** A job of the user is in the view exactly when its iteration set the
    inclusion flag. *)
Lemma in_view_iff uid channel_id now_iso s j :
  wf_store s -> In j (get_user_jobs uid s) ->
  (in_view j (fst (get_jobs fromisoformat R current_time uid channel_id
                            now_iso s))
   <-> snd (step j) = true).
Proof.
  intros Hwf Hj. unfold in_view. split.
  - intros (e & Hin & Hprov & Hid).
    apply get_jobs_view_In in Hin.
    destruct (proj1 (get_jobs_entries_job_derived uid channel_id now_iso s e))
      as (j' & Hj' & Ej'); [now split|].
    assert (j' = j); [|subst j'; now rewrite Ej'].
    assert (Hid' : job_id j' = job_id j).
    { pose proof (get_jobs_job_provenance j') as (_ & H & _).
      rewrite Ej' in H. simpl in H. congruence. }
    apply filter_In in Hj as [Hj _], Hj' as [Hj' _].
    apply in_map_iff in Hj as ([k x] & E & Hin'). simpl in E. subst x.
    assert (job_id j = k).
    { destruct Hwf as [_ Hf]. rewrite Forall_forall in Hf.
      exact (Hf _ Hin'). }
    eapply wf_store_unique; eauto. congruence.
  - intros Hs. exists (fst (step j)).
    pose proof (get_jobs_job_provenance j) as (Hp & Hid & _).
    repeat split; try assumption.
    apply get_jobs_view_In.
    apply (get_jobs_entries_job_derived uid channel_id now_iso s).
    exists j. split; [assumption|].
    destruct (step j) as [e inc]. simpl in *. now subst inc.
Qed.

End GetJobs.

Section Reconciliation.
Variable fromisoformat : string -> option Z.
Variable R : Remote.
Variable current_time : Z.

Local Abbreviation step := (get_jobs_job fromisoformat R current_time).
Local Abbreviation resolve := (get_jobs_resolve fromisoformat current_time).

(** The three outcomes of the status fetch in one iteration. *)
Lemma get_jobs_job_fetched j v :
  status_fetch R j = Some (Ok (Some v)) ->
  status (job (fst (step j))) = fst (resolve j v)
  /\ snd (step j) = snd (resolve j v).
Proof.
  unfold status_fetch, get_jobs_job.
  destruct (video_id j) as [vid|]; [|discriminate].
  destruct (truthy_str vid && truthy_str (channel_id j)); [|discriminate].
  intros [= ->]. destruct (resolve j v) as [st inc]. now split.
Qed.

Lemma get_jobs_job_nothing j :
  status_fetch R j = Some (Ok None) ->
  snd (step j) = false /\ status (job (fst (step j))) = status j.
Proof.
  unfold status_fetch, get_jobs_job.
  destruct (video_id j) as [vid|]; [|discriminate].
  destruct (truthy_str vid && truthy_str (channel_id j)); [|discriminate].
  intros [= ->]. now split.
Qed.

Lemma get_jobs_job_raised j msg :
  status_fetch R j = Some (Raised msg) ->
  snd (step j) = fallback_scheduled fromisoformat current_time j
  /\ status (job (fst (step j)))
     = (if fallback_scheduled fromisoformat current_time j
        then SCHEDULED else status j).
Proof.
  unfold status_fetch, get_jobs_job.
  destruct (video_id j) as [vid|]; [|discriminate].
  destruct (truthy_str vid && truthy_str (channel_id j)); [|discriminate].
  intros [= ->]. unfold get_jobs_except, fallback_scheduled.
  destruct (job_publish_time fromisoformat j) as [t|]; [|now split].
  destruct ((t >? current_time) && status_in (status j) [SCHEDULED; UPLOADED]);
    now split.
Qed.

(** [get_jobs] resolves by the documented precedence wherever the
    document speaks. *)
Lemma get_jobs_resolve_documented j v st :
  documented_status fromisoformat current_time j v = Some st ->
  fst (resolve j v) = st.
Proof.
  unfold documented_status, get_jobs_resolve, private_or_unlisted.
  destruct (privacy_status v =? "public")%string; [now intros [= <-]|].
  destruct (str_in (privacy_status v) _); [|discriminate].
  destruct (truthy (publish_at v)); cbn [andb].
  - destruct (instant_of fromisoformat (publish_at v)) as [t|]; [|discriminate].
    destruct (Z.ltb_spec current_time t), (Z.leb_spec t current_time);
      try lia; now intros [= <-].
  - destruct (job_publish_time fromisoformat j) as [t|]; [|now intros [= <-]].
    rewrite Z.gtb_ltb.
    destruct (current_time <? t); now intros [= <-].
Qed.

(** C2. A job with a video id whose remote state was fetched and is
    public, or private or unlisted with a scheduled-publish instant not
    after the current time, resolves to [published] and has no entry in
    the view of [get_jobs]. *)
Theorem get_jobs_excludes_published
        (uid : string) (channel_id : option string) (now_iso : string)
        (s : JobStore) (j : Job) (v : Video) :
  wf_store s ->
  In j (get_user_jobs uid s) ->
  status_fetch R j = Some (Ok (Some v)) ->
  (privacy_status v = "public"%string
   \/ (private_or_unlisted v = true /\ truthy (publish_at v) = true
       /\ exists t, instant_of fromisoformat (publish_at v) = Some t
                    /\ t <= current_time)) ->
  status (job (fst (step j))) = PUBLISHED
  /\ ~ in_view j (fst (get_jobs fromisoformat R current_time uid channel_id
                                now_iso s)).
Proof.
  intros Hwf Hj Hfetch Hremote.
  destruct (get_jobs_job_fetched j v Hfetch) as [Hst Hinc].
  assert (Hres : resolve j v = (PUBLISHED, false)).
  { unfold get_jobs_resolve.
    destruct Hremote as [->|(Hp & Hat & t & Ht & Hle)]; [reflexivity|].
    unfold private_or_unlisted in Hp. rewrite Hp, Hat, Ht. cbn [andb].
    destruct (privacy_status v =? "public")%string; [reflexivity|].
    destruct (Z.leb_spec t current_time); [reflexivity|lia]. }
  rewrite Hres in Hst, Hinc. split; [exact Hst|].
  rewrite in_view_iff by assumption. simpl in Hinc. congruence.
Qed.

(** C5, as the code has it. [get_jobs] leaves the jobs file as it found
    it: the resolved status is set on the entry it returns, which is the
    stored record with that status in place of the stored one. *)
Theorem get_jobs_writes_nothing
        (uid : string) (channel_id : option string) (now_iso : string)
        (s : JobStore) :
  snd (get_jobs fromisoformat R current_time uid channel_id now_iso s) = s
  /\ forall e,
      In e (fst (get_jobs fromisoformat R current_time uid channel_id
                          now_iso s)) ->
      from_youtube e = false ->
      exists j, In j (get_user_jobs uid s)
                /\ e = fst (step j)
                /\ job e = set_status (status (job e)) j.
Proof.
  split; [reflexivity|].
  intros e Hin Hprov. apply get_jobs_view_In in Hin.
  destruct (proj1 (get_jobs_entries_job_derived fromisoformat R current_time
                     uid channel_id now_iso s e))
    as (j & Hj & Ej); [now split|].
  exists j. pose proof (get_jobs_job_provenance fromisoformat R current_time j)
    as (_ & _ & H).
  rewrite Ej in *. now repeat split.
Qed.

(** C4, as the code has it. The view of [get_jobs] is the list of
    entries in discovery order, sorted by the [publish_datetime] text:
    it is non-decreasing for the order of strings, an entry without
    [publish_datetime] having the empty key and so coming first, and
    entries with equal keys keep their discovery order. *)
Theorem get_jobs_sorted_by_key
        (uid : string) (channel_id : option string) (now_iso : string)
        (s : JobStore) :
  let entries :=
    get_jobs_entries fromisoformat R current_time uid channel_id now_iso s in
  let view :=
    fst (get_jobs fromisoformat R current_time uid channel_id now_iso s) in
  Sorted key_le view
  /\ Permutation entries view
  /\ (forall k, filter (fun e => (sort_key e =? k)%string) view
                = filter (fun e => (sort_key e =? k)%string) entries)
  /\ (forall e e', In e view -> publish_datetime (job e) = None ->
                   key_le e e').
Proof.
  cbv zeta. unfold get_jobs. cbn [fst]. repeat split.
  - apply sort_by_sorted.
  - apply sort_by_perm.
  - intros k. apply sort_by_stable.
  - intros e e' _ He. unfold key_le, sort_key. rewrite He.
    destruct (String.leb_total "" (match publish_datetime (job e') with
                                   | Some s0 => s0 | None => "" end))
      as [H|H]; [exact H|].
    destruct (match publish_datetime (job e') with
              | Some s0 => s0 | None => "" end); [reflexivity|discriminate].
Qed.

End Reconciliation.

(* ------------------------------------------------------------------ *)
(** * Fetch failures *)

Section Degraded.
Variable fromisoformat : string -> option Z.
Variable current_time : Z.
Variables R R' : Remote.

Lemma get_jobs_job_ext j :
  (forall c v, get_video_status R' c v = get_video_status R c v) ->
  get_jobs_job fromisoformat R' current_time j
  = get_jobs_job fromisoformat R current_time j.
Proof.
  intros H. unfold get_jobs_job.
  destruct (video_id j) as [vid|]; [|reflexivity].
  destruct (truthy_str vid && truthy_str (channel_id j)); [|reflexivity].
  now rewrite H.
Qed.

Lemma get_jobs_loop_ext js :
  (forall c v, get_video_status R' c v = get_video_status R c v) ->
  forall acc ymap,
    get_jobs_loop fromisoformat R' current_time js acc ymap
    = get_jobs_loop fromisoformat R current_time js acc ymap.
Proof.
  intros H. induction js as [|j rest IH]; intros acc ymap; [reflexivity|].
  cbn [get_jobs_loop]. rewrite (get_jobs_job_ext j H).
  destruct (get_jobs_job fromisoformat R current_time j) as [e inc].
  destruct inc; apply IH.
Qed.

Lemma fetch_channel_degraded ch :
  degraded_channel ch R R' ->
  forall ymap c, fetch_channel R' ymap c = fetch_channel R ymap c.
Proof.
  intros ((msg & Hraise) & Hempty & Hother & _) ymap c.
  unfold fetch_channel, get_scheduled_videos.
  destruct (String.eqb_spec c ch) as [->|Hne].
  - now rewrite Hraise, Hempty.
  - now rewrite Hother.
Qed.

Lemma fetch_channels_degraded ch cs :
  degraded_channel ch R R' -> fetch_channels R' cs = fetch_channels R cs.
Proof.
  intros H. unfold fetch_channels. generalize (@nil (string * Video)).
  induction cs as [|c rest IH]; intros ymap; [reflexivity|].
  cbn [fold_left]. rewrite (fetch_channel_degraded ch H). apply IH.
Qed.

Lemma channels_to_check_ext channel_id :
  get_channels R' = get_channels R ->
  channels_to_check R' channel_id = channels_to_check R channel_id.
Proof. intros H. unfold channels_to_check. now rewrite H. Qed.

Lemma get_jobs_degraded ch uid channel_id now_iso s :
  degraded_channel ch R R' ->
  get_jobs fromisoformat R' current_time uid channel_id now_iso s
  = get_jobs fromisoformat R current_time uid channel_id now_iso s.
Proof.
  intros H. pose proof H as (_ & _ & _ & Hst & Hch).
  unfold get_jobs, get_jobs_entries.
  rewrite (channels_to_check_ext channel_id Hch).
  rewrite (fetch_channels_degraded ch _ H).
  rewrite (get_jobs_loop_ext _ Hst).
  destruct (get_jobs_loop _ _ _ _ _ _) as [synced ymap'].
  do 3 f_equal. apply flat_map_ext. intros kv.
  unfold remote_entry. now rewrite (channels_to_check_ext channel_id Hch).
Qed.

End Degraded.

(** C6, as the code has it. [get_jobs] returns a view whatever the
    collaborators do. A job whose status fetch raises is decided by the
    fallback rule: it is in the view exactly when its own target is in the
    future and its stored status is [scheduled] or [uploaded], and its
    entry then reads [scheduled]. A job whose status fetch returns nothing
    is left out of the view with its status untouched, whatever its target.
    A channel whose list raises contributes what an empty list would. *)
Theorem get_jobs_fallback
        (fromisoformat : string -> option Z) (R : Remote) (current_time : Z)
        (uid : string) (channel_id : option string) (now_iso : string)
        (s : JobStore) :
  wf_store s ->
  let view :=
    fst (get_jobs fromisoformat R current_time uid channel_id now_iso s) in
  let entry j := job (fst (get_jobs_job fromisoformat R current_time j)) in
  (forall j msg,
      In j (get_user_jobs uid s) -> status_fetch R j = Some (Raised msg) ->
      (in_view j view <-> fallback_scheduled fromisoformat current_time j = true)
      /\ status (entry j)
         = (if fallback_scheduled fromisoformat current_time j
            then SCHEDULED else status j))
  /\ (forall j,
        In j (get_user_jobs uid s) -> status_fetch R j = Some (Ok None) ->
        ~ in_view j view /\ status (entry j) = status j)
  /\ (forall ch R',
        degraded_channel ch R R' ->
        get_jobs fromisoformat R' current_time uid channel_id now_iso s
        = get_jobs fromisoformat R current_time uid channel_id now_iso s).
Proof.
  intros Hwf. cbv zeta. split; [|split].
  - intros j msg Hj Hf.
    destruct (get_jobs_job_raised fromisoformat R current_time j msg Hf)
      as [Hinc Hst].
    split; [|exact Hst].
    rewrite in_view_iff by assumption. now rewrite Hinc.
  - intros j Hj Hf.
    destruct (get_jobs_job_nothing fromisoformat R current_time j Hf)
      as [Hinc Hst].
    split; [|exact Hst].
    rewrite in_view_iff by assumption. rewrite Hinc. discriminate.
  - intros ch R' H. now apply get_jobs_degraded with (ch := ch).
Qed.

(* ------------------------------------------------------------------ *)
(** * The backstop *)

Lemma dict_get_set_same {V} k (v : V) d : dict_get k (dict_set k v d) = Some v.
Proof.
  induction d as [|[k' v'] r IH]; simpl.
  - now rewrite String.eqb_refl.
  - destruct (String.eqb_spec k' k) as [->|Hne]; simpl.
    + now rewrite String.eqb_refl.
    + destruct (String.eqb_spec k' k); [contradiction|exact IH].
Qed.

Lemma dict_get_set_other {V} k k0 (v : V) d :
  k0 <> k -> dict_get k0 (dict_set k v d) = dict_get k0 d.
Proof.
  intros Hne. induction d as [|[k' v'] r IH]; simpl.
  - destruct (String.eqb_spec k k0); [congruence|reflexivity].
  - destruct (String.eqb_spec k' k) as [->|Hne']; simpl.
    + destruct (String.eqb_spec k k0); [congruence|reflexivity].
    + destruct (String.eqb_spec k' k0); [reflexivity|exact IH].
Qed.

(** C9. When the timer armed for a job comes due, the privacy update to
    [public] is called once for the timer's video and the timer is gone
    afterwards, so nothing calls it again. If the call returns, the stored
    status of the job is [published]; if it raises, the stored status is
    [failed] and the message of the exception, which [update_job_status]
    stores when it is not empty, is the stored error message. *)
Theorem fire_marks_job (R : Remote) (id : string) (t : Timer) (j : Job)
        (w : World) :
  dict_wf (timers w) ->
  dict_get id (timers w) = Some t ->
  get_job id (jobs w) = Some j ->
  let w' := fire R id w in
  privacy_calls w'
  = (privacy_calls w ++ [(t_channel_id t, t_video_id t, "public"%string)])%list
  /\ dict_get id (timers w') = None
  /\ exists j',
      get_job id (jobs w') = Some j'
      /\ same_other_fields j j'
      /\ match update_video_privacy R (t_channel_id t) (t_video_id t) "public" with
         | Ok _ => status j' = PUBLISHED /\ error_message j' = error_message j
         | Raised msg =>
             status j' = FAILED
             /\ (msg <> ""%string -> error_message j' = Some msg)
         end.
Proof.
  intros Hwf Ht Hj. cbv zeta. unfold fire. rewrite Ht. unfold publish_video.
  destruct (update_video_privacy R (t_channel_id t) (t_video_id t) "public")
    as [u|msg]; cbn [jobs timers privacy_calls].
  - split; [reflexivity|]. split; [now apply dict_get_del_same|].
    exists (apply_update PUBLISHED None (Some (t_video_id t)) j).
    split; [now apply update_job_status_found|].
    destruct (apply_update_fields PUBLISHED None (Some (t_video_id t)) j)
      as (Hsame & Hst & Hem & _).
    repeat split; try assumption; apply Hsame.
  - split; [reflexivity|]. split; [now apply dict_get_del_same|].
    exists (apply_update FAILED (Some msg) (Some (t_video_id t)) j).
    split; [now apply update_job_status_found|].
    destruct (apply_update_fields FAILED (Some msg) (Some (t_video_id t)) j)
      as (Hsame & Hst & Hem & _).
    repeat split; try assumption; try apply Hsame.
    intros Hmsg. rewrite Hem. simpl. unfold truthy_str.
    destruct (String.eqb_spec msg ""); [contradiction|reflexivity].
Qed.

(* ------------------------------------------------------------------ *)
(** * The life cycle of the stored status *)

Lemma sync_new_status_image fromisoformat R current_time j ns :
  sync_new_status fromisoformat R current_time j = Some ns ->
  ns <> PENDING /\ ns <> FAILED.
Proof.
  unfold sync_new_status.
  destruct (video_id j) as [vid|]; [|discriminate].
  destruct (truthy_str vid && truthy_str (channel_id j)); [|discriminate].
  destruct (get_video_status R (channel_id j) vid) as [[v|]|]; try discriminate.
  destruct (negb _); [|discriminate]. intros [= <-].
  unfold sync_resolve.
  destruct (privacy_status v =? "public")%string; [split; discriminate|].
  destruct ((privacy_status v =? "private")%string && truthy (publish_at v));
    [|split; discriminate].
  destruct (instant_of fromisoformat (publish_at v)) as [t|];
    [|split; discriminate].
  destruct (t <=? current_time); split; discriminate.
Qed.

Lemma sync_loop_status fromisoformat R current_time k js :
  forall s c j,
    get_job k s = Some j ->
    exists j',
      get_job k (snd (sync_loop fromisoformat R current_time js s c)) = Some j'
      /\ (status j' = status j
          \/ (status j' <> PENDING /\ status j' <> FAILED)).
Proof.
  induction js as [|j0 rest IH]; intros s c j Hj.
  - exists j. split; [exact Hj|now left].
  - rewrite sync_loop_cons.
    destruct (sync_new_status fromisoformat R current_time j0) as [ns|] eqn:E;
      [|now apply IH].
    destruct (String.eqb_spec k (job_id j0)) as [->|Hne].
    + pose proof (update_job_status_found _ ns None (video_id j0) _ _ Hj) as Hj1.
      destruct (IH _ (S c) _ Hj1) as (j' & Hj' & Hst).
      exists j'. split; [exact Hj'|]. right.
      destruct (apply_update_fields ns None (video_id j0) j) as (_ & Hns & _).
      apply sync_new_status_image in E.
      destruct Hst as [Hst|Hst]; [|exact Hst].
      rewrite Hst, Hns. exact E.
    + apply IH. rewrite update_job_status_others by assumption. exact Hj.
Qed.

(** What one operation can do to the stored status of a job. *)
Lemma run_op_status fromisoformat env op w k j :
  get_job k (jobs w) = Some j ->
  exists j',
    get_job k (jobs (run_op fromisoformat env op w)) = Some j'
    /\ (status j' = PENDING -> status j = PENDING)
    /\ (status j' = FAILED -> status j = FAILED \/ op = Fire k).
Proof.
  intros Hj. destruct op as [id uid ch vid ttl at_ iso created md|uid|id].
  - cbn [run_op schedule_videos_record schedule_publish jobs].
    unfold save_job, get_job in *.
    destruct (String.eqb_spec k id) as [->|Hne].
    + rewrite dict_get_set_same. eexists. split; [reflexivity|].
      split; discriminate.
    + rewrite dict_get_set_other by assumption.
      exists j. split; [exact Hj|]. split; [tauto|]. now left.
  - cbn [run_op jobs]. unfold sync_jobs_with_youtube.
    destruct (sync_loop_status fromisoformat (env_remote env) (env_now env) k
                (get_user_jobs uid (jobs w)) (jobs w) 0%nat j Hj)
      as (j' & Hj' & Hst).
    exists j'. split; [exact Hj'|].
    destruct Hst as [->|[Hp Hf]]; split; tauto.
  - cbn [run_op]. unfold fire.
    destruct (dict_get id (timers w)) as [t|];
      [|exists j; split; [exact Hj|]; split; [tauto|now left]].
    unfold publish_video.
    destruct (String.eqb_spec k id) as [->|Hne].
    + destruct (update_video_privacy _ _ _ _) as [u|msg]; cbn [jobs];
        rewrite (update_job_status_found _ _ _ _ _ _ Hj);
        eexists; (split; [reflexivity|]);
        match goal with
        | |- context [apply_update ?st ?em ?vid j] =>
            destruct (apply_update_fields st em vid j) as (_ & -> & _)
        end.
      * split; discriminate.
      * split; [discriminate|]. now right.
    + destruct (update_video_privacy _ _ _ _) as [u|msg]; cbn [jobs];
        rewrite update_job_status_others by assumption;
        exists j; (split; [exact Hj|]); (split; [tauto|now left]).
Qed.

Lemma run_status
        (fromisoformat : string -> option Z) (ops : list (Env * Op))
        (w : World) (k : string) (j : Job) :
  get_job k (jobs w) = Some j ->
  exists j',
    get_job k (jobs (run fromisoformat ops w)) = Some j'
    /\ (status j <> PENDING -> status j' <> PENDING)
    /\ (status j' = FAILED -> status j = FAILED \/ In (Fire k) (map snd ops)).
Proof.
  revert w j. induction ops as [|[env op] rest IH]; intros w j Hj.
  - exists j. split; [exact Hj|]. split; [tauto|now left].
  - cbn [run fold_left fst snd].
    destruct (run_op_status fromisoformat env op w k j Hj)
      as (j1 & Hj1 & Hp1 & Hf1).
    destruct (IH _ _ Hj1) as (j' & Hj' & Hp & Hf).
    exists j'. split; [exact Hj'|]. split.
    + intros Hne. apply Hp. intros E. apply Hne. now apply Hp1.
    + intros E. cbn [map snd In].
      destruct (Hf E) as [E1|Hin]; [|now right; right].
      destruct (Hf1 E1) as [E0|E0]; [now left|right; left; now symmetry].
Qed.

(** C8, as the code has it. No operation looks at the stored status before
    it writes. Along every sequence of creations, syncs and backstop
    firings a job stays in the store, a job that is not [pending] never
    becomes [pending], and [failed] is only ever written by a backstop
    firing for that job. A sync stores, for every job of the user whose
    remote state it fetched, the status resolved from that state, whatever
    the stored status was, [published] and [failed] included. *)
Theorem stored_status_follows_operations (fromisoformat : string -> option Z) :
  (forall ops w k j,
      get_job k (jobs w) = Some j ->
      exists j',
        get_job k (jobs (run fromisoformat ops w)) = Some j'
        /\ (status j <> PENDING -> status j' <> PENDING)
        /\ (status j' = FAILED ->
            status j = FAILED \/ In (Fire k) (map snd ops)))
  /\ (forall env uid w k j v,
        wf_store (jobs w) ->
        get_job k (jobs w) = Some j ->
        user_id j = uid ->
        status_fetch (env_remote env) j = Some (Ok (Some v)) ->
        exists j',
          get_job k (jobs (run_op fromisoformat env (SyncAll uid) w)) = Some j'
          /\ status j' = sync_resolve fromisoformat (env_now env) v).
Proof.
  split.
  - intros ops w k j. apply run_status.
  - intros env uid w k j v Hwf Hj Hu Hf. cbn [run_op jobs].
    now apply sync_stores_resolved_status with (j := j).
Qed.

(* ------------------------------------------------------------------ *)
(** * The endpoints on concrete inputs *)

(** C1. The three endpoints do not share one precedence. For a job whose
    own target is in the future, the documented rules and [get_jobs] give
    [scheduled] both for an unlisted video with a future scheduled-publish
    instant and for a private video without one; [sync_jobs_with_youtube]
    and [get_job_status] only test for [private] with a [publish_at], never
    look at the job's own target, and give [uploaded] in both cases, which
    the sync then stores. *)
Theorem sync_resolve_departs_from_get_jobs :
  let unlisted := Ex.video "v1" "unlisted" Ex.june in
  let unscheduled := Ex.video "v1" "private" None in
  let iso := Iso.fromisoformat in
  (documented_status iso Ex.now Ex.job1 unlisted = Some SCHEDULED
   /\ fst (get_jobs_resolve iso Ex.now Ex.job1 unlisted) = SCHEDULED
   /\ sync_resolve iso Ex.now unlisted = UPLOADED
   /\ get_job_status_resolve iso Ex.now unlisted = UPLOADED)
  /\ (documented_status iso Ex.now Ex.job1 unscheduled = Some SCHEDULED
      /\ fst (get_jobs_resolve iso Ex.now Ex.job1 unscheduled) = SCHEDULED
      /\ sync_resolve iso Ex.now unscheduled = UPLOADED
      /\ get_job_status_resolve iso Ex.now unscheduled = UPLOADED)
  /\ sync_jobs_with_youtube iso (Ex.remote (Ok []) (Ok (Some unlisted)) (Ok tt))
                            Ex.now "u1" Ex.store1
     = (1%nat, [("j1"%string, set_status UPLOADED Ex.job1)]).
Proof. vm_compute. repeat split. Qed.

(** C3. The platform entry of a job is only deleted when the job is
    included. Job [j1] holds video [v1]; its own target has passed, its
    status fetch raises, and the platform lists [v1] as scheduled for a
    later date: the job is left out, its platform entry stays in the map,
    and the view reports [v1] as a video found on the platform only. *)
Theorem get_jobs_keeps_entry_of_excluded_job :
  let listed := Ex.video "v1" "private" Ex.june in
  let R := Ex.remote (Ok [listed]) (Raised "quotaExceeded") (Ok tt) in
  let view :=
    fst (get_jobs Iso.fromisoformat R Ex.now "u1" (Some "c1"%string)
                  "2030-01-01T00:00:00+00:00" Ex.store_past) in
  get_user_jobs "u1" Ex.store_past = [Ex.job_past]
  /\ video_id Ex.job_past = Some "v1"%string
  /\ dict_mem "v1" (fetch_channels R (channels_to_check R (Some "c1"%string)))
     = true
  /\ snd (get_jobs_job Iso.fromisoformat R Ex.now Ex.job_past) = false
  /\ map (fun e => (job_id (job e), video_id (job e), from_youtube e)) view
     = [("youtube_v1"%string, Some "v1"%string, true)].
Proof. vm_compute. repeat split. Qed.

(** C4 fails as worded: job [j2] has no [publish_datetime], is discovered
    after [j1] and is sorted before it, its key being the empty string. *)
Lemma get_jobs_puts_missing_instant_first :
  let R := Ex.remote (Ok []) (Ok (Some (Ex.video "v1" "private" Ex.june)))
                     (Ok tt) in
  let view :=
    fst (get_jobs Iso.fromisoformat R Ex.now "u1" None "" Ex.store2) in
  map (fun e => job_id (job e))
      (get_jobs_entries Iso.fromisoformat R Ex.now "u1" None "" Ex.store2)
  = ["j1"; "j2"]%string
  /\ map (fun e => job_id (job e)) view = ["j2"; "j1"]%string
  /\ ~ sorted_by_instant Iso.fromisoformat view.
Proof.
  cbv zeta. split; [vm_compute; reflexivity|].
  split; [vm_compute; reflexivity|].
  unfold sorted_by_instant. intros H.
  remember (fst (get_jobs _ _ _ _ _ _ _)) as view eqn:E.
  vm_compute in E. subst view.
  inversion H as [|? ? _ Hhd]; subst.
  inversion Hhd as [|? ? Hle]; subst.
  vm_compute in Hle. discriminate.
Qed.

(** C5 fails as worded: the platform says [public], the entry resolves to
    [published], and the stored status is still [scheduled] after the
    call. *)
Lemma get_jobs_does_not_write_back :
  ~ status_written_back Iso.fromisoformat
      (Ex.remote (Ok []) (Ok (Some (Ex.video "v1" "public" None))) (Ok tt))
      Ex.now "u1" None "" Ex.store1.
Proof.
  intros H. specialize (H Ex.job1).
  assert (Hin : In Ex.job1 (get_user_jobs "u1" Ex.store1))
    by (vm_compute; now left).
  specialize (H Hin). cbv zeta in H.
  assert (Hne : status (job (fst (get_jobs_job Iso.fromisoformat
                 (Ex.remote (Ok []) (Ok (Some (Ex.video "v1" "public" None)))
                            (Ok tt)) Ex.now Ex.job1)))
                <> status Ex.job1)
    by (vm_compute; discriminate).
  specialize (H Hne). vm_compute in H. discriminate.
Qed.

(** C6 fails as worded: the status fetch of [j1] returns nothing, its own
    target is in the future and its stored status is [scheduled], yet the
    view is empty. *)
Lemma get_jobs_drops_job_without_remote_state :
  ~ fallback_decides Iso.fromisoformat (Ex.remote (Ok []) (Ok None) (Ok tt))
      Ex.now "u1" None "" Ex.store1.
Proof.
  intros H. specialize (H Ex.job1).
  assert (Hin : In Ex.job1 (get_user_jobs "u1" Ex.store1))
    by (vm_compute; now left).
  assert (Hun : unreachable (Ex.remote (Ok []) (Ok None) (Ok tt)) Ex.job1)
    by (left; reflexivity).
  destruct (H Hin Hun) as [_ Hback].
  destruct Hback as (e & He & _); [vm_compute; reflexivity|].
  vm_compute in He. exact He.
Qed.

(** C8 fails as worded: the backstop marked [j1] failed, the platform
    published the video on its own schedule, and the sync stores
    [published] over [failed]. *)
Lemma sync_overwrites_failed :
  ~ only_forward Iso.fromisoformat.
Proof.
  intros H.
  specialize (H [(mkEnv (Ex.remote (Ok [])
                                   (Ok (Some (Ex.video "v1" "public" None)))
                                   (Ok tt)) Ex.now,
                  SyncAll "u1")]
                Ex.world_failed "j1"%string Ex.job_failed
                (set_status PUBLISHED Ex.job_failed)).
  assert (H1 : get_job "j1" (jobs Ex.world_failed) = Some Ex.job_failed)
    by reflexivity.
  specialize (H H1).
  vm_compute in H. specialize (H eq_refl). discriminate.
Qed.

(** ** The theorems at work *)

Lemma get_jobs_excludes_published_witness :
  let R := Ex.remote (Ok []) (Ok (Some (Ex.video "v1" "public" None))) (Ok tt) in
  status (job (fst (get_jobs_job Iso.fromisoformat R Ex.now Ex.job1)))
  = PUBLISHED
  /\ ~ in_view Ex.job1
       (fst (get_jobs Iso.fromisoformat R Ex.now "u1" None "" Ex.store1)).
Proof.
  cbv zeta.
  apply (get_jobs_excludes_published Iso.fromisoformat _ Ex.now "u1" None ""
           Ex.store1 Ex.job1 (Ex.video "v1" "public" None)).
  - store_wf.
  - vm_compute. now left.
  - reflexivity.
  - left. reflexivity.
Defined.

Lemma get_jobs_fallback_witness :
  let R := Ex.remote (Ok []) (Raised "quotaExceeded") (Ok tt) in
  (in_view Ex.job1
     (fst (get_jobs Iso.fromisoformat R Ex.now "u1" None "" Ex.store1))
   <-> fallback_scheduled Iso.fromisoformat Ex.now Ex.job1 = true)
  /\ status (job (fst (get_jobs_job Iso.fromisoformat R Ex.now Ex.job1)))
     = SCHEDULED.
Proof.
  cbv zeta.
  refine (proj1 (get_jobs_fallback Iso.fromisoformat _ Ex.now "u1" None ""
                   Ex.store1 _) Ex.job1 "quotaExceeded"%string _ _).
  - store_wf.
  - vm_compute. now left.
  - reflexivity.
Defined.

Lemma sync_twice_changes_nothing_witness :
  let R := Ex.remote (Ok []) (Ok (Some (Ex.video "v1" "public" None))) (Ok tt) in
  fst (sync_jobs_with_youtube Iso.fromisoformat R Ex.now "u1"
         (snd (sync_jobs_with_youtube Iso.fromisoformat R Ex.now "u1"
                                      Ex.store1)))
  = 0%nat.
Proof.
  cbv zeta. apply sync_twice_changes_nothing. store_wf.
Defined.

Lemma stored_status_follows_operations_witness :
  let R := Ex.remote (Ok []) (Ok (Some (Ex.video "v1" "public" None)))
                     (Raised "Privacy update error: forbidden") in
  let ops := [(mkEnv R Ex.now, Fire "j1"); (mkEnv R Ex.now, SyncAll "u1")] in
  (exists j',
      get_job "j1" (jobs (run Iso.fromisoformat ops Ex.world1)) = Some j'
      /\ (status Ex.job1 <> PENDING -> status j' <> PENDING)
      /\ (status j' = FAILED ->
          status Ex.job1 = FAILED \/ In (Fire "j1") (map snd ops)))
  /\ (exists j',
        get_job "j1" (jobs (run_op Iso.fromisoformat (mkEnv R Ex.now)
                                   (SyncAll "u1") Ex.world_failed))
        = Some j'
        /\ status j' = PUBLISHED).
Proof.
  cbv zeta. split.
  - apply (proj1 (stored_status_follows_operations Iso.fromisoformat)).
    reflexivity.
  - refine (proj2 (stored_status_follows_operations Iso.fromisoformat)
                  (mkEnv _ Ex.now) "u1"%string Ex.world_failed "j1"%string
                  Ex.job_failed (Ex.video "v1" "public" None) _ _ _ _).
    + store_wf.
    + reflexivity.
    + reflexivity.
    + reflexivity.
Defined.

Lemma fire_marks_job_witness :
  let R := Ex.remote (Ok []) (Ok None)
                     (Raised "Privacy update error: forbidden") in
  let w' := fire R "j1" Ex.world1 in
  privacy_calls w' = [("c1", "v1", "public")]%string
  /\ dict_get "j1" (timers w') = None
  /\ exists j',
      get_job "j1" (jobs w') = Some j'
      /\ same_other_fields Ex.job1 j'
      /\ status j' = FAILED
      /\ ("Privacy update error: forbidden"%string <> ""%string ->
          error_message j' = Some "Privacy update error: forbidden"%string).
Proof.
  cbv zeta.
  refine (fire_marks_job _ "j1" Ex.timer1 Ex.job1 Ex.world1 _ _ _).
  - repeat constructor. simpl. tauto.
  - reflexivity.
  - reflexivity.
Defined.

Lemma update_job_status_frame_witness :
  exists j',
    get_job "j1" (update_job_status "j1" PUBLISHED None None Ex.store_failed)
    = Some j'
    /\ same_other_fields Ex.job_failed j'
    /\ status j' = PUBLISHED
    /\ error_message j' = error_message Ex.job_failed
    /\ video_id j' = video_id Ex.job_failed
    /\ (truthy (error_message Ex.job_failed) = true ->
        truthy (error_message j') = true).
Proof.
  exact (proj1 (update_job_status_frame "j1" PUBLISHED None None
                  Ex.store_failed) Ex.job_failed eq_refl).
Defined.

Lemma get_jobs_writes_nothing_witness :
  let R := Ex.remote (Ok []) (Ok (Some (Ex.video "v1" "private" Ex.june)))
                     (Ok tt) in
  snd (get_jobs Iso.fromisoformat R Ex.now "u1" None "" Ex.store1) = Ex.store1
  /\ map (fun e => status (job e))
         (fst (get_jobs Iso.fromisoformat R Ex.now "u1" None "" Ex.store1))
     = [SCHEDULED].
Proof.
  cbv zeta. split.
  - exact (proj1 (get_jobs_writes_nothing Iso.fromisoformat _ Ex.now "u1" None
                    "" Ex.store1)).
  - vm_compute. reflexivity.
Defined.

Lemma get_jobs_sorted_by_key_witness :
  let R := Ex.remote (Ok []) (Ok (Some (Ex.video "v1" "private" Ex.june)))
                     (Ok tt) in
  Sorted key_le
         (fst (get_jobs Iso.fromisoformat R Ex.now "u1" None "" Ex.store2)).
Proof.
  cbv zeta.
  exact (proj1 (get_jobs_sorted_by_key Iso.fromisoformat _ Ex.now "u1" None ""
                  Ex.store2)).
Defined.

(* ------------------------------------------------------------------ *)
(** * More of the program *)

(** ** The descending sort and the slice *)

Section SortDescFacts.
Context {A : Type} (key : A -> string).

Local Abbreviation ge := (fun a b : A => (key b <=? key a)%string = true).

Lemma insert_by_desc_perm a l : Permutation (a :: l) (insert_by_desc key a l).
Proof.
  induction l as [|b r IH]; simpl; [reflexivity|].
  destruct (key b <=? key a)%string; [reflexivity|].
  rewrite perm_swap. now constructor.
Qed.

Lemma sort_by_desc_perm l : Permutation l (sort_by_desc key l).
Proof.
  induction l as [|a r IH]; simpl; [constructor|].
  rewrite <- insert_by_desc_perm. now constructor.
Qed.

Lemma insert_by_desc_sorted a l :
  Sorted ge l -> Sorted ge (insert_by_desc key a l).
Proof.
  induction l as [|b r IH]; simpl; intros Hs.
  - repeat constructor.
  - destruct (key b <=? key a)%string eqn:E.
    + constructor; [assumption|now constructor].
    + inversion Hs as [|? ? Hr Hhd]; subst.
      apply leb_false_flip in E as [E _].
      constructor; [now apply IH|].
      destruct r as [|c r']; simpl; [now constructor|].
      destruct (key c <=? key a)%string; constructor; [assumption|].
      now inversion Hhd.
Qed.

Lemma sort_by_desc_sorted l : Sorted ge (sort_by_desc key l).
Proof.
  induction l as [|a r IH]; simpl; [constructor|].
  now apply insert_by_desc_sorted.
Qed.

Lemma insert_by_desc_stable k a l :
  filter (fun x => (key x =? k)%string) (insert_by_desc key a l)
  = filter (fun x => (key x =? k)%string) (a :: l).
Proof.
  induction l as [|b r IH]; [reflexivity|].
  cbn [insert_by_desc]. destruct (key b <=? key a)%string eqn:E; [reflexivity|].
  apply leb_false_flip in E as [_ Hne].
  cbn [filter] in *. rewrite IH.
  destruct (String.eqb_spec (key a) k) as [Ea|Ea];
    destruct (String.eqb_spec (key b) k) as [Eb|Eb];
    try reflexivity.
  congruence.
Qed.

Lemma sort_by_desc_stable k l :
  filter (fun x => (key x =? k)%string) (sort_by_desc key l)
  = filter (fun x => (key x =? k)%string) l.
Proof.
  induction l as [|a r IH]; [reflexivity|].
  cbn [sort_by_desc]. rewrite insert_by_desc_stable. cbn [filter].
  now rewrite IH.
Qed.


Lemma firstn_sorted (R : A -> A -> Prop) n l :
  Sorted R l -> Sorted R (firstn n l).
Proof.
  revert l. induction n as [|n IH]; intros l Hs; [constructor|].
  destruct l as [|a r]; [constructor|].
  inversion Hs as [|? ? Hr Hhd]; subst. cbn [firstn].
  constructor; [now apply IH|].
  destruct n; [constructor|].
  destruct r as [|b r']; [constructor|].
  inversion Hhd; subst. now constructor.
Qed.

Lemma slice_to_sorted (R : A -> A -> Prop) n l :
  Sorted R l -> Sorted R (slice_to n l).
Proof.
  intros Hs. unfold slice_to. destruct (0 <=? n); now apply firstn_sorted.
Qed.

End SortDescFacts.

Lemma firstn_incl {A} n (l : list A) x : In x (firstn n l) -> In x l.
Proof.
  revert l. induction n as [|n IH]; intros [|a r]; simpl; try tauto.
  intros [E|H]; [now left|right; now apply IH].
Qed.

Lemma slice_to_In {A} n (l : list A) x : In x (slice_to n l) -> In x l.
Proof.
  unfold slice_to. destruct (0 <=? n); apply firstn_incl.
Qed.

Lemma slice_to_length {A} n (l : list A) :
  0 <= n -> (length (slice_to n l) <= Z.to_nat n)%nat.
Proof.
  intros Hn. unfold slice_to.
  destruct (Z.leb_spec 0 n); [|lia].
  rewrite length_firstn. lia.
Qed.

Lemma slice_to_all {A} n (l : list A) :
  Z.of_nat (length l) <= n -> slice_to n l = l.
Proof.
  intros Hn. unfold slice_to.
  destruct (Z.leb_spec 0 n); [|lia].
  apply firstn_all2. lia.
Qed.

Lemma slice_to_length_min {A} n (l : list A) :
  0 <= n -> length (slice_to n l) = Nat.min (Z.to_nat n) (length l).
Proof.
  intros Hn. unfold slice_to.
  destruct (Z.leb_spec 0 n); [|lia].
  apply length_firstn.
Qed.

(** ** The nested dictionaries of the storage files *)

Lemma dict_get_ensure {V} k k0 (dflt : V) d :
  dict_get k0 (if dict_mem k d then d else dict_set k dflt d)
  = if (k0 =? k)%string
    then Some (match dict_get k d with Some v => v | None => dflt end)
    else dict_get k0 d.
Proof.
  unfold dict_mem. destruct (String.eqb_spec k0 k) as [->|Hne].
  - destruct (dict_get k d) as [v|] eqn:E; [exact E|].
    apply dict_get_set_same.
  - destruct (dict_get k d) as [v|] eqn:E; [reflexivity|].
    now apply dict_get_set_other.
Qed.

Lemma dict_get_adjust_ensure_same {V} k (f : V -> V) (dflt : V) d :
  dict_get k (dict_adjust k f (if dict_mem k d then d else dict_set k dflt d))
  = Some (f (match dict_get k d with Some v => v | None => dflt end)).
Proof.
  rewrite dict_get_adjust_same, dict_get_ensure, String.eqb_refl.
  reflexivity.
Qed.

Lemma dict_get_adjust_ensure_other {V} k k0 (f : V -> V) (dflt : V) d :
  k0 <> k ->
  dict_get k0 (dict_adjust k f (if dict_mem k d then d else dict_set k dflt d))
  = dict_get k0 d.
Proof.
  intros Hne. rewrite dict_get_adjust_other by assumption.
  rewrite dict_get_ensure.
  destruct (String.eqb_spec k0 k); [contradiction|reflexivity].
Qed.

(** X1. A token saved for a user and a channel is the one [get_token]
    returns for them, and the token of every other user or channel is
    what it was. *)
Theorem save_token_get_token (uid ch : string) (t : Token) (tokens : TokenStore) :
  get_token uid ch (save_token uid ch t tokens) = Some t
  /\ forall uid' ch',
      uid' <> uid \/ ch' <> ch ->
      get_token uid' ch' (save_token uid ch t tokens)
      = get_token uid' ch' tokens.
Proof.
  unfold get_token, get_user_tokens, save_token, TokenStore. cbv zeta. split.
  - rewrite dict_get_adjust_ensure_same. apply dict_get_set_same.
  - intros uid' ch' Hne.
    destruct (String.eqb_spec uid' uid) as [->|Hu].
    + rewrite dict_get_adjust_ensure_same.
      destruct Hne as [Hne|Hne]; [contradiction|].
      rewrite dict_get_set_other by assumption.
      now destruct (dict_get uid tokens).
    + now rewrite dict_get_adjust_ensure_other.
Qed.

Lemma save_failed_video_read_back uid ch fv n all_failed :
  get_channel_failed_videos uid ch (save_failed_video uid ch fv n all_failed)
  = slice_to n
      (sort_by_desc failure_time
         (get_channel_failed_videos uid ch all_failed ++ [fv])).
Proof.
  unfold get_channel_failed_videos, save_failed_video, FailedStore. cbv zeta.
  rewrite dict_get_adjust_ensure_same. cbv beta iota zeta.
  rewrite dict_get_adjust_ensure_same.
  destruct (dict_get uid all_failed) as [chans|]; [|reflexivity].
  now destruct (dict_get ch chans).
Qed.

Lemma save_failed_video_others uid ch fv n all_failed uid' ch' :
  uid' <> uid \/ ch' <> ch ->
  get_channel_failed_videos uid' ch' (save_failed_video uid ch fv n all_failed)
  = get_channel_failed_videos uid' ch' all_failed.
Proof.
  intros Hne. unfold get_channel_failed_videos, save_failed_video, FailedStore.
  cbv zeta.
  destruct (String.eqb_spec uid' uid) as [->|Hu].
  - rewrite dict_get_adjust_ensure_same. cbv beta iota zeta.
    destruct Hne as [Hne|Hne]; [contradiction|].
    rewrite dict_get_adjust_ensure_other by assumption.
    now destruct (dict_get uid all_failed).
  - now rewrite dict_get_adjust_ensure_other.
Qed.

(** X2. After [save_failed_video] with a cap that is not negative, the
    list of the channel has at most [max_entries] records, is ordered by
    [failure_time] from the most recent, and holds nothing but records it
    held before and the new one; while the list was below the cap no
    record is dropped. The lists of other users and channels are as they
    were. *)
Theorem save_failed_video_capped
        (uid ch : string) (fv : FailedVideo) (n : Z) (all_failed : FailedStore) :
  0 <= n ->
  let old := get_channel_failed_videos uid ch all_failed in
  let new := get_channel_failed_videos uid ch
               (save_failed_video uid ch fv n all_failed) in
  (length new <= Z.to_nat n)%nat
  /\ Sorted (fun a b => (failure_time b <=? failure_time a)%string = true) new
  /\ (forall x, In x new -> x = fv \/ In x old)
  /\ (Z.of_nat (length old) < n -> Permutation (fv :: old) new)
  /\ (forall uid' ch',
        uid' <> uid \/ ch' <> ch ->
        get_channel_failed_videos uid' ch'
          (save_failed_video uid ch fv n all_failed)
        = get_channel_failed_videos uid' ch' all_failed).
Proof.
  intros Hn. cbv zeta.
  split; [|split; [|split; [|split]]];
    try (intros uid' ch'; apply save_failed_video_others);
    rewrite save_failed_video_read_back.
  - now apply slice_to_length.
  - apply slice_to_sorted, sort_by_desc_sorted.
  - intros x Hx. apply slice_to_In in Hx.
    apply (Permutation_in _ (Permutation_sym (sort_by_desc_perm _ _))) in Hx.
    apply in_app_or in Hx as [Hx|[Hx|[]]]; [now right|now left].
  - intros Hlen. rewrite slice_to_all.
    + rewrite <- sort_by_desc_perm. apply Permutation_cons_append.
    + rewrite <- (Permutation_length (sort_by_desc_perm failure_time _)).
      rewrite length_app. simpl. lia.
Qed.

Lemma save_recent_videos_read_back uid ch videos n all_recent :
  get_channel_recent_videos uid ch (save_recent_videos uid ch videos n all_recent)
  = slice_to n (sort_by_desc rv_date videos).
Proof.
  unfold get_channel_recent_videos, save_recent_videos, RecentStore. cbv zeta.
  rewrite dict_get_adjust_ensure_same. now rewrite dict_get_set_same.
Qed.

(** X3. [save_recent_videos] replaces the list of the channel: with a cap
    that is not negative, what is read back has at most [max_entries]
    videos, all taken from the list given, ordered by [date] from the most
    recent, whatever was stored before; other users and channels keep
    their lists. *)
Theorem save_recent_videos_replaces
        (uid ch : string) (videos : list RecentVideo) (n : Z)
        (all_recent : RecentStore) :
  0 <= n ->
  let new := get_channel_recent_videos uid ch
               (save_recent_videos uid ch videos n all_recent) in
  (length new <= Z.to_nat n)%nat
  /\ Sorted (fun a b => (rv_date b <=? rv_date a)%string = true) new
  /\ (forall x, In x new -> In x videos)
  /\ (Z.of_nat (length videos) <= n -> Permutation videos new)
  /\ (forall uid' ch',
        uid' <> uid \/ ch' <> ch ->
        get_channel_recent_videos uid' ch'
          (save_recent_videos uid ch videos n all_recent)
        = get_channel_recent_videos uid' ch' all_recent).
Proof.
  intros Hn. cbv zeta. rewrite save_recent_videos_read_back.
  split; [now apply slice_to_length|].
  split; [apply slice_to_sorted, sort_by_desc_sorted|].
  split; [|split].
  - intros x Hx. apply slice_to_In in Hx.
    now apply (Permutation_in _ (Permutation_sym (sort_by_desc_perm _ _))) in Hx.
  - intros Hlen. rewrite slice_to_all; [apply sort_by_desc_perm|].
    now rewrite <- (Permutation_length (sort_by_desc_perm rv_date _)).
  - intros uid' ch' Hne.
    unfold get_channel_recent_videos, save_recent_videos, RecentStore. cbv zeta.
    destruct (String.eqb_spec uid' uid) as [->|Hu].
    + rewrite dict_get_adjust_ensure_same.
      destruct Hne as [Hne|Hne]; [contradiction|].
      rewrite dict_get_set_other by assumption.
      now destruct (dict_get uid all_recent).
    + now rewrite dict_get_adjust_ensure_other.
Qed.

(** ** The job store and the backstop, further *)

Lemma dict_set_set {V} k (v1 v2 : V) d :
  dict_set k v2 (dict_set k v1 d) = dict_set k v2 d.
Proof.
  induction d as [|[k' v'] r IH]; simpl.
  - now rewrite String.eqb_refl.
  - destruct (String.eqb_spec k' k) as [->|Hne]; simpl.
    + now rewrite String.eqb_refl.
    + destruct (String.eqb_spec k' k); [contradiction|]. now rewrite IH.
Qed.

Lemma dict_get_del_other {V} k k0 (d : dict V) :
  k0 <> k -> dict_get k0 (dict_del k d) = dict_get k0 d.
Proof.
  intros Hne. induction d as [|[k' v'] r IH]; simpl; [reflexivity|].
  destruct (String.eqb_spec k' k) as [->|Hne']; simpl.
  - destruct (String.eqb_spec k k0); [congruence|reflexivity].
  - destruct (String.eqb_spec k' k0); [reflexivity|exact IH].
Qed.

Lemma dict_del_In {V} k (d : dict V) kv : In kv (dict_del k d) -> In kv d.
Proof.
  induction d as [|[k' v'] r IH]; simpl; [tauto|].
  destruct (k' =? k)%string; simpl; [tauto|].
  intros [E|H]; [now left|right; now apply IH].
Qed.

Lemma dict_set_Forall {V} (P : string * V -> Prop) k v (d : dict V) :
  Forall P d -> P (k, v) -> Forall P (dict_set k v d).
Proof.
  intros Hd Hkv. induction d as [|[k' v'] r IH]; simpl.
  - now repeat constructor.
  - inversion Hd; subst.
    destruct (String.eqb_spec k' k) as [->|Hne]; constructor; auto.
Qed.

Lemma save_job_wf id j s :
  wf_store s -> job_id j = id -> wf_store (save_job id j s).
Proof.
  intros [Hnd Hid] Hj. split; [now apply dict_set_wf|].
  now apply dict_set_Forall.
Qed.

(** X4. [save_job] files the record under the given id: it is what
    [get_job] then returns, every other id keeps its record, and a store
    in which each record sits under its own distinct job id stays so when
    the record carries the id it is saved under. *)
Theorem save_job_get_job (id : string) (j : Job) (s : JobStore) :
  get_job id (save_job id j s) = Some j
  /\ (forall k, k <> id -> get_job k (save_job id j s) = get_job k s)
  /\ (wf_store s -> job_id j = id -> wf_store (save_job id j s)).
Proof.
  unfold get_job, save_job. split; [apply dict_get_set_same|]. split.
  - intros k Hk. now apply dict_get_set_other.
  - apply save_job_wf.
Qed.

(** X5. Arming a backstop registers the timer under the job id, in place
    of any timer already registered under it: arming twice is arming once
    with the later arguments. The timers of other jobs, the jobs file and
    the privacy calls are untouched, and distinct timer ids stay
    distinct. *)
Theorem schedule_publish_replaces
        (uid ch vid : string) (t : Z) (id : string) (w : World) :
  let w' := schedule_publish uid ch vid t id w in
  dict_get id (timers w') = Some (mkTimer uid ch vid t)
  /\ (forall k, k <> id -> dict_get k (timers w') = dict_get k (timers w))
  /\ (forall uid2 ch2 vid2 t2,
        schedule_publish uid2 ch2 vid2 t2 id w'
        = schedule_publish uid2 ch2 vid2 t2 id w)
  /\ (dict_wf (timers w) -> dict_wf (timers w'))
  /\ jobs w' = jobs w
  /\ privacy_calls w' = privacy_calls w.
Proof.
  cbv zeta. unfold schedule_publish. cbn [timers jobs privacy_calls].
  split; [apply dict_get_set_same|].
  split; [intros k Hk; now apply dict_get_set_other|].
  split; [intros; now rewrite dict_set_set|].
  split; [apply dict_set_wf|]. now split.
Qed.

(** X6. A backstop fires once: after [fire] the timer is gone, so a second
    [fire] for the same job does nothing, and one [fire] makes at most one
    privacy call. The records and timers of other jobs are untouched. *)
Theorem fire_only_once (R : Remote) (id : string) (w : World) :
  dict_wf (timers w) ->
  fire R id (fire R id w) = fire R id w
  /\ (length (privacy_calls (fire R id w)) <= S (length (privacy_calls w)))%nat
  /\ (dict_get id (timers w) = None -> fire R id w = w)
  /\ forall k, k <> id ->
       dict_get k (timers (fire R id w)) = dict_get k (timers w)
       /\ get_job k (jobs (fire R id w)) = get_job k (jobs w).
Proof.
  intros Hwf.
  assert (Hgone : dict_get id (timers (fire R id w)) = None).
  { unfold fire. destruct (dict_get id (timers w)) as [t|] eqn:E; [|exact E].
    cbn [timers]. unfold publish_video.
    destruct (update_video_privacy _ _ _ _); cbn [timers];
      now apply dict_get_del_same. }
  split; [|split; [|split]].
  - unfold fire at 1. now rewrite Hgone.
  - unfold fire. destruct (dict_get id (timers w)) as [t|]; [|lia].
    unfold publish_video.
    destruct (update_video_privacy _ _ _ _); cbn [privacy_calls];
      rewrite length_app; simpl; lia.
  - intros E. unfold fire. now rewrite E.
  - intros k Hk. unfold fire.
    destruct (dict_get id (timers w)) as [t|]; [|now split].
    unfold publish_video.
    destruct (update_video_privacy _ _ _ _); cbn [timers jobs]; split;
      try (now apply dict_get_del_other);
      now apply update_job_status_others.
Qed.

(** X7. [JobManager.get_job_status] answers for stored jobs only, and with
    the stored record: right after the backstop is armed it reports the
    job as scheduled with the run date, and after the backstop has fired
    it reports it as not scheduled. *)
Theorem job_manager_status_reports_timer
        (R : Remote) (uid ch vid : string) (t : Z) (id : string) (w : World) :
  (get_job id (jobs w) = None -> Scheduler.get_job_status id w = None)
  /\ (forall j,
        get_job id (jobs w) = Some j ->
        Scheduler.get_job_status id (schedule_publish uid ch vid t id w)
        = Some (mkJobView j true (Some t))
        /\ (dict_wf (timers w) ->
            exists j',
              get_job id (jobs (fire R id w)) = Some j'
              /\ Scheduler.get_job_status id (fire R id w)
                 = Some (mkJobView j' false None))).
Proof.
  split.
  - intros E. unfold Scheduler.get_job_status. now rewrite E.
  - intros j Hj. split.
    + unfold Scheduler.get_job_status, schedule_publish.
      cbn [jobs timers]. now rewrite Hj, dict_get_set_same.
    + intros Hwf.
      assert (Hj' : exists j', get_job id (jobs (fire R id w)) = Some j').
      { unfold fire. destruct (dict_get id (timers w)) as [tm|]; [|eauto].
        unfold publish_video.
        destruct (update_video_privacy _ _ _ _); cbn [jobs];
          rewrite (update_job_status_found _ _ _ _ _ _ Hj); eauto. }
      destruct Hj' as [j' Hj']. exists j'. split; [exact Hj'|].
      unfold Scheduler.get_job_status. rewrite Hj'.
      assert (Hgone : dict_get id (timers (fire R id w)) = None).
      { unfold fire. destruct (dict_get id (timers w)) as [tm|] eqn:E; [|exact E].
        cbn [timers]. unfold publish_video.
        destruct (update_video_privacy _ _ _ _); cbn [timers];
          now apply dict_get_del_same. }
      now rewrite Hgone.
Qed.

(** X8. [schedule_videos] records an uploaded video as a job with status
    [scheduled] under its job id and arms its backstop for the publish
    instant; other jobs and timers are as before and the store stays well
    formed. *)
Theorem schedule_videos_record_stores_and_arms
        (id uid ch vid ttl : string) (t : Z) (iso created : string)
        (md : Metadata) (w : World) :
  let w' := schedule_videos_record id uid ch vid ttl t iso created md w in
  let record := mkJob id uid ch (Some vid) ttl SCHEDULED (Some iso) created
                      None (Some md) in
  Scheduler.get_job_status id w' = Some (mkJobView record true (Some t))
  /\ In record (get_user_jobs uid (jobs w'))
  /\ (forall k, k <> id ->
        get_job k (jobs w') = get_job k (jobs w)
        /\ dict_get k (timers w') = dict_get k (timers w))
  /\ (wf_store (jobs w) -> wf_store (jobs w'))
  /\ privacy_calls w' = privacy_calls w.
Proof.
  cbv zeta. unfold schedule_videos_record, schedule_publish.
  cbn [jobs timers privacy_calls].
  split; [|split; [|split; [|split]]].
  - unfold Scheduler.get_job_status. cbn [jobs timers].
    unfold get_job, save_job. now rewrite !dict_get_set_same.
  - unfold get_user_jobs. apply filter_In. split.
    + unfold values.
      match goal with |- In ?r _ => change r with (snd (id, r)) end.
      apply in_map. apply dict_get_In. unfold save_job.
      apply dict_get_set_same.
    + cbn [user_id]. apply String.eqb_refl.
  - intros k Hk. unfold get_job, save_job.
    now rewrite !dict_get_set_other by assumption.
  - intros Hwf. now apply save_job_wf.
  - reflexivity.
Qed.

(** ** The endpoints, further *)

(** X9. [GET /jobs/{job_id}] answers 404 for an unknown id and 403 for
    the job of another user; otherwise it returns the record as stored,
    with the state of its timer: the status it resolved from the platform
    is not in the response, whatever the platform says. *)
Theorem get_job_status_returns_stored_record
        (fromisoformat : string -> option Z) (R : Remote) (current_time : Z)
        (id uid : string) (w : World) :
  Videos.get_job_status fromisoformat R current_time id uid w
  = match get_job id (jobs w) with
    | None => inl HTTP_404_NOT_FOUND
    | Some j =>
        if (user_id j =? uid)%string
        then inr (SchedulerView
                    (mkJobView j (dict_mem id (timers w))
                               (option_map run_date (dict_get id (timers w)))))
        else inl HTTP_403_FORBIDDEN
    end.
Proof.
  unfold Videos.get_job_status, Scheduler.get_job_status, dict_mem.
  destruct (get_job id (jobs w)) as [j|]; [|reflexivity].
  destruct (user_id j =? uid)%string; [|reflexivity]. cbn [negb].
  now destruct (dict_get id (timers w)).
Qed.

Section ViewFacts.
Variable fromisoformat : string -> option Z.
Variable R : Remote.
Variable current_time : Z.

Local Abbreviation step := (get_jobs_job fromisoformat R current_time).
Local Abbreviation loop := (get_jobs_loop fromisoformat R current_time).

Lemma status_in_cases st l : status_in st l = true -> In st l.
Proof.
  unfold status_in. rewrite existsb_exists. intros (x & Hx & E).
  unfold status_eqb in E. destruct (JobStatus_eq_dec st x); [now subst|discriminate].
Qed.

Lemma get_jobs_no_video_status j :
  get_jobs_no_video fromisoformat current_time j = true ->
  status j = SCHEDULED \/ status j = UPLOADED \/ status j = PENDING.
Proof.
  unfold get_jobs_no_video.
  destruct (job_publish_time fromisoformat j); [|discriminate].
  intros H. apply andb_true_iff in H as [_ H].
  apply status_in_cases in H. simpl in H. intuition congruence.
Qed.

Lemma get_jobs_resolve_included j v :
  snd (get_jobs_resolve fromisoformat current_time j v) = true ->
  fst (get_jobs_resolve fromisoformat current_time j v) = SCHEDULED.
Proof.
  unfold get_jobs_resolve.
  destruct (privacy_status v =? "public")%string; [discriminate|].
  destruct (str_in (privacy_status v) _ && truthy (publish_at v)).
  - destruct (instant_of fromisoformat (publish_at v)) as [t|]; [|reflexivity].
    destruct (t <=? current_time); [discriminate|reflexivity].
  - destruct (str_in (privacy_status v) _); [|discriminate].
    destruct (job_publish_time fromisoformat j) as [t|]; [|discriminate].
    destruct (t >? current_time); [reflexivity|discriminate].
Qed.

(** The entry of an included job. *)
Lemma get_jobs_job_included j e :
  step j = (e, true) ->
  user_id (job e) = user_id j
  /\ video_id (job e) = video_id j
  /\ channel_id (job e) = channel_id j
  /\ (status (job e) = SCHEDULED
      \/ ((status (job e) = UPLOADED \/ status (job e) = PENDING)
          /\ truthy (video_id j) && truthy_str (channel_id j) = false)).
Proof.
  unfold get_jobs_job.
  destruct (video_id j) as [vid|] eqn:Ev.
  - cbn [truthy].
    destruct (truthy_str vid && truthy_str (channel_id j)) eqn:Et.
    + destruct (get_video_status R (channel_id j) vid) as [[v|]|msg].
      * pose proof (get_jobs_resolve_included j v) as Hr.
        destruct (get_jobs_resolve fromisoformat current_time j v) as [st inc].
        intros [= <- ->]. cbn in *. rewrite Hr by reflexivity. tauto.
      * discriminate.
      * unfold get_jobs_except.
        destruct (job_publish_time fromisoformat j) as [t|]; [|discriminate].
        destruct ((t >? current_time) && status_in (status j) _);
          [|discriminate].
        intros [= <-]. cbn. tauto.
    + intros [= <- Hn]. cbn. rewrite Ev.
      apply get_jobs_no_video_status in Hn. repeat split; try reflexivity.
      destruct Hn as [Hn|[Hn|Hn]]; tauto.
  - intros [= <- Hn]. cbn. rewrite Ev.
    apply get_jobs_no_video_status in Hn. repeat split; try reflexivity.
    destruct Hn as [Hn|[Hn|Hn]]; tauto.
Qed.

(** The entry made of a platform video. *)
Lemma remote_entry_shape uid channel_id now_iso vid v e :
  In e (remote_entry fromisoformat R current_time uid channel_id now_iso
                     (vid, v)) ->
  from_youtube e = true
  /\ user_id (job e) = uid
  /\ status (job e) = SCHEDULED
  /\ job_id (job e) = ("youtube_" ++ vid)%string
  /\ video_id (job e) = Some vid
  /\ publish_datetime (job e) = publish_at v
  /\ exists t, instant_of fromisoformat (publish_at v) = Some t
               /\ current_time < t.
Proof.
  unfold remote_entry.
  destruct (truthy (publish_at v)); [|contradiction].
  destruct (instant_of fromisoformat (publish_at v)) as [t|]; [|contradiction].
  destruct (Z.gtb_spec t current_time); [|contradiction].
  intros [<-|[]]. cbn. repeat split. exists t. split; [reflexivity|lia].
Qed.

(** The entries of the view, by provenance. *)
Lemma get_jobs_view_cases uid channel_id now_iso s e :
  In e (fst (get_jobs fromisoformat R current_time uid channel_id now_iso s)) ->
  (exists j, In j (get_user_jobs uid s) /\ step j = (e, true))
  \/ (exists vid v,
        In (vid, v) (snd (loop (get_user_jobs uid s) []
                               (fetch_channels R (channels_to_check R channel_id))))
        /\ In e (remote_entry fromisoformat R current_time uid channel_id
                              now_iso (vid, v))).
Proof.
  intros Hin. apply get_jobs_view_In in Hin. unfold get_jobs_entries in Hin.
  pose proof (get_jobs_loop_entries fromisoformat R current_time
                (get_user_jobs uid s) []
                (fetch_channels R (channels_to_check R channel_id))) as Hl.
  destruct (loop _ _ _) as [synced ymap']. cbn [fst snd] in *. subst synced.
  apply in_app_or in Hin as [Hin|Hin].
  - left. cbn [app] in Hin.
    apply in_map_iff in Hin as ([e' inc] & <- & Hin).
    apply filter_In in Hin as [Hin Hinc]. cbn in Hinc. subst inc.
    apply in_map_iff in Hin as (j & Ej & Hj). eauto.
  - right. apply in_flat_map in Hin as ([vid v] & Hkv & Hin). eauto.
Qed.

(** X10. Every entry of the view of [get_jobs] belongs to the user who
    asked, and none is [published] or [failed]: an entry reads
    [scheduled], or else [uploaded] or [pending] for a job that lacks a
    video id or a channel id. *)
Theorem get_jobs_view_statuses
        (uid : string) (channel_id0 : option string) (now_iso : string)
        (s : JobStore) (e : Entry) :
  In e (fst (get_jobs fromisoformat R current_time uid channel_id0 now_iso s)) ->
  user_id (job e) = uid
  /\ status (job e) <> PUBLISHED
  /\ status (job e) <> FAILED
  /\ (status (job e) = SCHEDULED
      \/ ((status (job e) = UPLOADED \/ status (job e) = PENDING)
          /\ from_youtube e = false
          /\ truthy (video_id (job e)) && truthy_str (channel_id (job e))
             = false)).
Proof.
  intros Hin. apply get_jobs_view_cases in Hin as [(j & Hj & Ej)|(vid & v & _ & He)].
  - destruct (get_jobs_job_included j e Ej) as (Hu & Hv & Hc & Hst).
    pose proof (get_jobs_job_provenance fromisoformat R current_time j)
      as (Hprov & _).
    rewrite Ej in Hprov. cbn in Hprov.
    apply filter_In in Hj as [_ Hj]. apply String.eqb_eq in Hj.
    rewrite Hv, Hc.
    split; [congruence|].
    destruct Hst as [->|[[->| ->] Hn]];
      repeat split; try discriminate; tauto.
  - apply remote_entry_shape in He as (_ & Hu & -> & _).
    repeat split; try discriminate; tauto.
Qed.

End ViewFacts.

(** ** The platform map and the entries made of it *)

Lemma dict_set_In {V} k (v : V) d kv :
  In kv (dict_set k v d) -> kv = (k, v) \/ In kv d.
Proof.
  induction d as [|[k' v'] r IH]; simpl.
  - intros [<-|[]]. now left.
  - destruct (String.eqb_spec k' k) as [->|Hne]; simpl.
    + intros [<-|H]; [now left|right; now right].
    + intros [<-|H]; [right; now left|].
      destruct (IH H) as [E|H']; [now left|right; now right].
Qed.

Lemma map_filter_NoDup {A B} (f : A -> B) (p : A -> bool) l :
  NoDup (map f l) -> NoDup (map f (filter p l)).
Proof.
  induction l as [|a r IH]; simpl; intros H; [constructor|].
  inversion H as [|? ? Hn Hr]; subst.
  destruct (p a); simpl; [|now apply IH].
  constructor; [|now apply IH].
  intros Hin. apply Hn. apply in_map_iff in Hin as (x & E & Hx).
  apply filter_In in Hx as [Hx _]. apply in_map_iff. eauto.
Qed.

Section PlatformMap.
Variable fromisoformat : string -> option Z.
Variable R : Remote.
Variable current_time : Z.

Local Abbreviation step := (get_jobs_job fromisoformat R current_time).
Local Abbreviation loop := (get_jobs_loop fromisoformat R current_time).

Lemma fetch_videos_wf vs : forall m : dict Video,
  dict_wf m -> dict_wf (fold_left (fun m v => dict_set (v_video_id v) v m) vs m).
Proof.
  induction vs as [|v r IH]; intros m Hm; [exact Hm|].
  cbn [fold_left]. apply IH. now apply dict_set_wf.
Qed.

Lemma fetch_videos_In vs : forall (m : dict Video) kv,
  In kv (fold_left (fun m v => dict_set (v_video_id v) v m) vs m) ->
  In kv m \/ (In (snd kv) vs /\ fst kv = v_video_id (snd kv)).
Proof.
  induction vs as [|v r IH]; intros m kv H; [now left|].
  cbn [fold_left] in H. apply IH in H as [H|[H E]].
  - apply dict_set_In in H as [->|H]; [right|now left].
    split; [now left|reflexivity].
  - right. split; [now right|exact E].
Qed.

(** The platform map has one entry per video id, each a video the filter
    of [get_scheduled_videos] let through, filed under its id and listed
    by one of the channels checked. *)
Lemma fetch_channels_spec cs :
  dict_wf (fetch_channels R cs)
  /\ forall kv, In kv (fetch_channels R cs) ->
       fst kv = v_video_id (snd kv)
       /\ is_scheduled_video (snd kv) = true
       /\ exists c items, In c cs /\ videos_list R c = Ok items
                          /\ In (snd kv) items.
Proof.
  unfold fetch_channels.
  assert (H : forall (m : dict Video),
             dict_wf m ->
             dict_wf (fold_left (fetch_channel R) cs m)
             /\ forall kv, In kv (fold_left (fetch_channel R) cs m) ->
                  In kv m
                  \/ (fst kv = v_video_id (snd kv)
                      /\ is_scheduled_video (snd kv) = true
                      /\ exists c items, In c cs /\ videos_list R c = Ok items
                                         /\ In (snd kv) items)).
  { induction cs as [|c r IH]; intros m Hm.
    - split; [exact Hm|]. intros kv Hkv. now left.
    - cbn [fold_left].
      assert (Hc : dict_wf (fetch_channel R m c)
                   /\ forall kv, In kv (fetch_channel R m c) ->
                        In kv m
                        \/ (fst kv = v_video_id (snd kv)
                            /\ is_scheduled_video (snd kv) = true
                            /\ exists items, videos_list R c = Ok items
                                             /\ In (snd kv) items)).
      { unfold fetch_channel, get_scheduled_videos.
        destruct (videos_list R c) as [items|msg]; [|split; [exact Hm|now left]].
        split; [now apply fetch_videos_wf|].
        intros kv Hkv. apply fetch_videos_In in Hkv as [Hkv|[Hkv E]]; [now left|].
        apply filter_In in Hkv as [Hkv Hs]. right. eauto. }
      destruct Hc as [Hwf Hc]. destruct (IH _ Hwf) as [Hwf' Hin].
      split; [exact Hwf'|]. intros kv Hkv.
      destruct (Hin kv Hkv) as [H|(E & Hs & c' & items & Hc' & Hl & Hi)].
      + destruct (Hc kv H) as [H'|(E & Hs & items & Hl & Hi)]; [now left|].
        right. repeat split; try assumption. exists c, items.
        repeat split; try assumption. now left.
      + right. repeat split; try assumption. exists c', items.
        repeat split; try assumption. now right. }
  destruct (H [] (NoDup_nil _)) as [Hwf Hin]. split; [exact Hwf|].
  intros kv Hkv. destruct (Hin kv Hkv) as [[]|H']. exact H'.
Qed.

Lemma forget_video_spec j (ymap : dict Video) :
  dict_wf ymap ->
  dict_wf (forget_video j ymap)
  /\ (forall kv, In kv (forget_video j ymap) -> In kv ymap)
  /\ (forall vid, video_id j = Some vid -> ~ In vid (keys (forget_video j ymap))).
Proof.
  intros Hwf. unfold forget_video.
  destruct (video_id j) as [vid|]; [|repeat split; auto; discriminate].
  unfold dict_mem. destruct (dict_get vid ymap) as [v|] eqn:E.
  - split; [now apply dict_del_wf|]. split; [intros kv; apply dict_del_In|].
    intros vid' [= <-]. now apply dict_del_notin.
  - split; [exact Hwf|]. split; [auto|].
    intros vid' [= <-]. now apply dict_get_None_notin.
Qed.

(** What the loop leaves of the platform map: entries of the map it was
    given, still one per video id, none under the video id of an included
    job. *)
Lemma get_jobs_loop_map js : forall acc (ymap : dict Video),
  dict_wf ymap ->
  dict_wf (snd (loop js acc ymap))
  /\ (forall kv, In kv (snd (loop js acc ymap)) -> In kv ymap)
  /\ (forall j vid, In j js -> snd (step j) = true -> video_id j = Some vid ->
                    ~ In vid (keys (snd (loop js acc ymap)))).
Proof.
  induction js as [|j rest IH]; intros acc ymap Hwf.
  - cbn. split; [exact Hwf|]. split; [auto|]. intros j vid [].
  - cbn [get_jobs_loop]. destruct (step j) as [e inc] eqn:Es.
    destruct inc.
    + destruct (forget_video_spec j ymap Hwf) as (Hwf1 & Hin1 & Hno1).
      destruct (IH (acc ++ [e])%list _ Hwf1) as (Hwf' & Hin' & Hno').
      split; [exact Hwf'|]. split; [auto|].
      intros j' vid [<-|Hj'] Hinc Hvid; [|eauto].
      intros Hk. apply (Hno1 vid Hvid).
      apply in_map_iff in Hk as (kv & <- & Hkv).
      apply in_map. auto.
    + destruct (IH acc _ Hwf) as (Hwf' & Hin' & Hno').
      split; [exact Hwf'|]. split; [auto|].
      intros j' vid [<-|Hj'] Hinc Hvid; [|eauto].
      rewrite Es in Hinc. discriminate.
Qed.

Lemma remote_entries_video_ids uid channel_id now_iso (d : dict Video) x :
  In x (map (fun e => video_id (job e))
            (flat_map (remote_entry fromisoformat R current_time uid channel_id
                                    now_iso) d)) ->
  exists k, x = Some k /\ In k (keys d).
Proof.
  intros H. apply in_map_iff in H as (e & <- & He).
  apply in_flat_map in He as ([vid v] & Hkv & He).
  apply remote_entry_shape in He as (_ & _ & _ & _ & Hv & _).
  exists vid. split; [exact Hv|]. apply in_map_iff. now exists (vid, v).
Qed.

Lemma remote_entries_NoDup uid channel_id now_iso (d : dict Video) :
  dict_wf d ->
  NoDup (map (fun e => video_id (job e))
             (flat_map (remote_entry fromisoformat R current_time uid channel_id
                                     now_iso) d)).
Proof.
  unfold dict_wf. induction d as [|[vid v] r IH]; intros Hnd; [constructor|].
  inversion Hnd as [|? ? Hn Hr]; subst.
  cbn [flat_map]. rewrite map_app. apply NoDup_app.
  - unfold remote_entry.
    destruct (truthy (publish_at v)); [|constructor].
    destruct (instant_of fromisoformat (publish_at v)); [|constructor].
    destruct (_ >? _); repeat constructor. simpl. tauto.
  - now apply IH.
  - intros x Hx Hx'.
    apply remote_entries_video_ids in Hx' as (k & -> & Hk).
    apply in_map_iff in Hx as (e & Ex & He).
    apply remote_entry_shape in He as (_ & _ & _ & _ & Hv & _).
    assert (k = vid) by congruence. subst k. now apply Hn.
Qed.

Lemma included_video_ids js :
  map (fun x => video_id (job (fst x))) (filter snd (map step js))
  = map video_id (filter (fun j => snd (step j)) js).
Proof.
  induction js as [|j r IH]; [reflexivity|].
  cbn [map filter]. destruct (step j) as [e inc] eqn:Es.
  destruct inc; cbn [snd map fst]; [|exact IH].
  rewrite IH. f_equal.
  now destruct (get_jobs_job_included fromisoformat R current_time j e Es)
    as (_ & -> & _).
Qed.

(** X11. When the jobs of the user have pairwise distinct video ids, no
    two entries of the view of [get_jobs] carry the same video id: a video
    an included job accounts for is not reported again from the
    platform's list, and the platform's list is reported once per video. *)
Theorem get_jobs_one_entry_per_video
        (uid : string) (channel_id0 : option string) (now_iso : string)
        (s : JobStore) :
  NoDup (map video_id (get_user_jobs uid s)) ->
  NoDup (map (fun e => video_id (job e))
             (fst (get_jobs fromisoformat R current_time uid channel_id0
                            now_iso s))).
Proof.
  intros Hnd.
  apply (Permutation_NoDup
           (Permutation_map _ (sort_by_perm sort_key
              (get_jobs_entries fromisoformat R current_time uid channel_id0
                                now_iso s)))).
  unfold get_jobs_entries.
  pose proof (get_jobs_loop_entries fromisoformat R current_time
                (get_user_jobs uid s) []
                (fetch_channels R (channels_to_check R channel_id0))) as Hl.
  destruct (fetch_channels_spec (channels_to_check R channel_id0)) as [Hwf _].
  destruct (get_jobs_loop_map (get_user_jobs uid s) [] _ Hwf)
    as (Hwf' & _ & Hno).
  destruct (loop _ _ _) as [synced ymap']. cbn [fst snd] in *. subst synced.
  cbn [app]. rewrite map_app. apply NoDup_app.
  - rewrite map_map.
    rewrite included_video_ids. now apply map_filter_NoDup.
  - now apply remote_entries_NoDup.
  - intros x Hx Hx'.
    apply remote_entries_video_ids in Hx' as (k & -> & Hk).
    rewrite map_map in Hx. apply in_map_iff in Hx as ([e inc] & Ex & He).
    apply filter_In in He as [He Hinc]. cbn in Hinc, Ex. subst inc.
    apply in_map_iff in He as (j & Ej & Hj).
    destruct (get_jobs_job_included fromisoformat R current_time j e Ej)
      as (_ & Hv & _).
    apply (Hno j k Hj); [now rewrite Ej|congruence|exact Hk].
Qed.

(** X12. An entry of the view flagged [from_youtube] stands for a video
    that one of the channels checked lists as private or unlisted with a
    [publish_at] strictly after the current time; the entry is
    [scheduled], takes that [publish_at] as its [publish_datetime], and has
    the id [youtube_] followed by the video id. *)
Theorem get_jobs_remote_only_entries
        (uid : string) (channel_id0 : option string) (now_iso : string)
        (s : JobStore) (e : Entry) :
  In e (fst (get_jobs fromisoformat R current_time uid channel_id0 now_iso s)) ->
  from_youtube e = true ->
  exists v c items t,
    In c (channels_to_check R channel_id0)
    /\ videos_list R c = Ok items /\ In v items
    /\ private_or_unlisted v = true
    /\ job_id (job e) = ("youtube_" ++ v_video_id v)%string
    /\ video_id (job e) = Some (v_video_id v)
    /\ status (job e) = SCHEDULED
    /\ publish_datetime (job e) = publish_at v
    /\ instant_of fromisoformat (publish_at v) = Some t
    /\ current_time < t.
Proof.
  intros Hin Hprov.
  apply get_jobs_view_cases in Hin as [(j & Hj & Ej)|(vid & v & Hkv & He)].
  - pose proof (get_jobs_job_provenance fromisoformat R current_time j)
      as (Hp & _).
    rewrite Ej in Hp. cbn in Hp. congruence.
  - destruct (fetch_channels_spec (channels_to_check R channel_id0))
      as [Hwf Hspec].
    destruct (get_jobs_loop_map (get_user_jobs uid s) [] _ Hwf)
      as (_ & Hsub & _).
    destruct (Hspec _ (Hsub _ Hkv)) as (Ek & Hs & c & items & Hc & Hl & Hi).
    cbn [fst snd] in *. subst vid.
    apply remote_entry_shape in He
      as (_ & _ & Hst & Hid & Hv & Hd & t & Ht & Hlt).
    exists v, c, items, t. repeat split; try assumption.
    unfold is_scheduled_video in Hs. apply andb_true_iff in Hs as [Hs _].
    exact Hs.
Qed.

End PlatformMap.

(** ** What a sync leaves behind *)

Lemma apply_update_set_status ns j :
  apply_update ns None (video_id j) j = set_status ns j.
Proof.
  destruct j. unfold apply_update, set_status, set_video_id. cbn.
  now destruct (truthy video_id0).
Qed.

Lemma apply_update_twice ns j :
  apply_update ns None (video_id j) (set_status ns j) = set_status ns j.
Proof.
  destruct j. unfold apply_update, set_status, set_video_id. cbn.
  now destruct (truthy video_id0).
Qed.

Section SyncOutcome.
Variable fromisoformat : string -> option Z.
Variable R : Remote.
Variable current_time : Z.

Local Abbreviation new_status_of := (sync_new_status fromisoformat R current_time).
Local Abbreviation effect := (sync_effect fromisoformat R current_time).
Local Abbreviation sync := (sync_jobs_with_youtube fromisoformat R current_time).

Lemma sync_new_status_differs j ns :
  new_status_of j = Some ns -> status_eqb (status j) ns = false.
Proof.
  unfold sync_new_status.
  destruct (video_id j) as [vid|]; [|discriminate].
  destruct (truthy_str vid && truthy_str (channel_id j)); [|discriminate].
  destruct (get_video_status R (channel_id j) vid) as [[v|]|]; try discriminate.
  destruct (status_eqb (status j) _) eqn:E; cbn [negb]; [discriminate|].
  now intros [= <-].
Qed.

Lemma sync_new_status_fetched j ns :
  new_status_of j = Some ns ->
  exists v, status_fetch R j = Some (Ok (Some v))
            /\ ns = sync_resolve fromisoformat current_time v.
Proof.
  unfold sync_new_status, status_fetch.
  destruct (video_id j) as [vid|]; [|discriminate].
  destruct (truthy_str vid && truthy_str (channel_id j)); [|discriminate].
  destruct (get_video_status R (channel_id j) vid) as [[v|]|]; try discriminate.
  destruct (negb _); [|discriminate]. intros [= <-]. eauto.
Qed.

Lemma sync_effect_exact k j0 js :
  (forall j, In j js -> job_id j = k -> j = j0) ->
  forall x,
    x = j0
    \/ x = match new_status_of j0 with
           | Some ns => set_status ns j0
           | None => j0
           end ->
    effect k js x
    = if existsb (fun j => (job_id j =? k)%string) js
      then match new_status_of j0 with
           | Some ns => set_status ns j0
           | None => j0
           end
      else x.
Proof.
  induction js as [|j rest IH]; intros Hown x Hx; [reflexivity|].
  assert (Hrest : forall j', In j' rest -> job_id j' = k -> j' = j0)
    by (intros j' Hj'; apply Hown; now right).
  rewrite sync_effect_cons. cbn [existsb].
  rewrite (String.eqb_sym k (job_id j)).
  destruct (String.eqb_spec (job_id j) k) as [Hk|Hk]; cbn [orb].
  - assert (j = j0) by (apply Hown; [now left|exact Hk]). subst j.
    destruct (new_status_of j0) as [ns|] eqn:E.
    + assert (Hx' : apply_update ns None (video_id j0) x = set_status ns j0).
      { destruct Hx as [->| ->];
          [apply apply_update_set_status|apply apply_update_twice]. }
      rewrite Hx'. rewrite IH by tauto.
      now destruct (existsb _ rest).
    + assert (x = j0) by tauto. subst x. rewrite IH by tauto.
      now destruct (existsb _ rest).
  - destruct (new_status_of j); now apply IH.
Qed.

Lemma sync_loop_wf js : forall s c,
  wf_store s -> wf_store (snd (sync_loop fromisoformat R current_time js s c)).
Proof.
  induction js as [|j rest IH]; intros s c Hwf; [exact Hwf|].
  rewrite sync_loop_cons. destruct (new_status_of j); [|now apply IH].
  apply IH. now apply update_job_status_wf.
Qed.

(** The jobs file after a sync, record by record. *)
Lemma sync_store_get uid s k j :
  wf_store s ->
  get_job k s = Some j ->
  get_job k (snd (sync uid s))
  = Some (if (user_id j =? uid)%string
          then match new_status_of j with
               | Some ns => set_status ns j
               | None => j
               end
          else j).
Proof.
  intros Hwf Hj. unfold sync_jobs_with_youtube.
  rewrite sync_loop_store by apply Hwf.
  apply dict_get_In in Hj.
  assert (Hk : job_id j = k).
  { destruct Hwf as [_ Hid]. rewrite Forall_forall in Hid. exact (Hid _ Hj). }
  assert (He : effect k (get_user_jobs uid s) j
               = if (user_id j =? uid)%string
                 then match new_status_of j with
                      | Some ns => set_status ns j
                      | None => j
                      end
                 else j).
  { rewrite (sync_effect_exact k j); [| |now left].
    - destruct (existsb _ _) eqn:Ex.
      + apply existsb_exists in Ex as (j' & Hj' & Ek).
        apply String.eqb_eq in Ek.
        apply filter_In in Hj' as [Hj' Hu].
        assert (j' = j) by (eapply wf_store_unique; eauto). subst j'.
        now rewrite Hu.
      + destruct (user_id j =? uid)%string eqn:Eu; [|reflexivity].
        exfalso. assert (Hex : existsb (fun j' => (job_id j' =? k)%string)
                                       (get_user_jobs uid s) = true);
          [|congruence].
        apply existsb_exists. exists j. split; [|now apply String.eqb_eq].
        apply filter_In. split; [|exact Eu].
        change j with (snd (k, j)). now apply in_map.
    - intros j' Hj' Hk'. apply filter_In in Hj' as [Hj' _].
      eapply wf_store_unique; eauto. }
  rewrite <- He. apply In_dict_get.
  - unfold dict_wf, keys. rewrite map_map. cbn. apply Hwf.
  - apply in_map_iff. exists (k, j). now split.
Qed.

(** X13. A sync writes statuses and nothing else: the ids of the store
    and their order are kept, every record is the one stored before up to
    its status, and the records of other users and the records whose
    remote state was not fetched (no video id, no channel id, a fetch
    that raised or returned nothing) are left exactly as they were. *)
Theorem sync_writes_statuses_only (uid : string) (s : JobStore) :
  wf_store s ->
  let s' := snd (sync uid s) in
  keys s' = keys s
  /\ wf_store s'
  /\ forall k j,
      get_job k s = Some j ->
      exists j',
        get_job k s' = Some j'
        /\ j' = set_status (status j') j
        /\ (user_id j <> uid -> j' = j)
        /\ ((forall v, status_fetch R j <> Some (Ok (Some v))) -> j' = j).
Proof.
  intros Hwf. cbv zeta.
  assert (Hkeys : keys (snd (sync uid s)) = keys s).
  { unfold sync_jobs_with_youtube. rewrite sync_loop_store by apply Hwf.
    unfold keys. rewrite map_map. reflexivity. }
  split; [exact Hkeys|]. split.
  - unfold sync_jobs_with_youtube. now apply sync_loop_wf.
  - intros k j Hj. rewrite (sync_store_get uid s k j Hwf Hj).
    eexists. split; [reflexivity|].
    destruct (String.eqb_spec (user_id j) uid) as [Eu|Eu].
    + destruct (new_status_of j) as [ns|] eqn:E.
      * split; [reflexivity|]. split; [contradiction|].
        intros Hno. apply sync_new_status_fetched in E as (v & Hv & _).
        now elim (Hno v).
      * split; [now destruct j|]. now split.
    + split; [now destruct j|]. now split.
Qed.

Lemma filter_filter_map_length {A B} (g : A -> B) (p q : B -> bool) l :
  length (filter p (filter q (map g l)))
  = length (filter (fun a => q (g a) && p (g a)) l).
Proof.
  induction l as [|a r IH]; [reflexivity|].
  cbn [map filter]. destruct (q (g a)); cbn [andb filter]; [|exact IH].
  destruct (p (g a)); cbn [length]; now rewrite IH.
Qed.

(** X14. The number a sync reports is the number of records of the store
    whose stored status is different after the sync. *)
Theorem sync_count_is_changed_statuses (uid : string) (s : JobStore) :
  wf_store s ->
  fst (sync uid s)
  = length
      (filter
         (fun kv =>
            match get_job (fst kv) (snd (sync uid s)) with
            | Some j' => negb (status_eqb (status (snd kv)) (status j'))
            | None => false
            end) s).
Proof.
  intros Hwf. unfold sync_jobs_with_youtube at 1.
  rewrite sync_loop_count. cbn [Nat.add].
  unfold get_user_jobs, values. rewrite filter_filter_map_length.
  f_equal. apply filter_ext_in. intros [k j] Hin. cbn [fst snd].
  assert (Hj : get_job k s = Some j) by (apply In_dict_get; [apply Hwf|exact Hin]).
  rewrite (sync_store_get uid s k j Hwf Hj).
  assert (Hrefl : status_eqb (status j) (status j) = true).
  { unfold status_eqb. destruct (JobStatus_eq_dec _ _); congruence. }
  destruct (user_id j =? uid)%string; cbn [andb]; [|now rewrite Hrefl].
  destruct (new_status_of j) as [ns|] eqn:E; [|now rewrite Hrefl].
  cbn [status set_status]. now rewrite (sync_new_status_differs j ns E).
Qed.

End SyncOutcome.

(** ** The recent and failed lists *)



Lemma save_failed_videos_length uid ch fvs : forall st,
  length (get_channel_failed_videos uid ch
            (fold_left (fun st fv => save_failed_video uid ch fv 20 st) fvs st))
  = match fvs with
    | [] => length (get_channel_failed_videos uid ch st)
    | _ :: _ =>
        Nat.min 20 (length (get_channel_failed_videos uid ch st) + length fvs)
    end.
Proof.
  induction fvs as [|fv r IH]; intros st; [reflexivity|].
  cbn [fold_left]. rewrite IH.
  assert (H1 : length (get_channel_failed_videos uid ch
                         (save_failed_video uid ch fv 20 st))
               = Nat.min 20 (length (get_channel_failed_videos uid ch st) + 1)).
  { rewrite save_failed_video_read_back, slice_to_length_min by lia.
    rewrite <- (Permutation_length (sort_by_desc_perm failure_time _)).
    rewrite length_app. reflexivity. }
  destruct r as [|fv' r']; [rewrite H1; cbn [length]; lia|].
  rewrite H1. cbn [length]. lia.
Qed.

(** X16. [POST /failed/refresh] returns at most 20 records, the most
    recent first, each made of a job of the user on that channel whose
    status is [failed] and whose error message is not empty. It appends
    them to the stored list: the list grows by their number, up to the cap
    of 20, so refreshing again stores the same failures again; other
    channels keep their lists. *)
Theorem refresh_failed_videos_appends
        (uid ch : string) (tokens : TokenStore) (jobs0 : JobStore)
        (all_failed : FailedStore) :
  match Feeds.refresh_failed_videos uid ch tokens jobs0 all_failed with
  | inr (videos, all_failed') =>
      (length videos <= 20)%nat
      /\ Sorted (fun a b => (failure_time b <=? failure_time a)%string = true)
                videos
      /\ (forall fv, In fv videos ->
            exists j, In j (get_user_jobs uid jobs0)
                      /\ channel_id j = ch /\ status j = FAILED
                      /\ truthy (error_message j) = true
                      /\ error_message j = Some (failure_reason fv)
                      /\ fv_job_id fv = job_id j
                      /\ failure_time fv = created_at j)
      /\ length (get_channel_failed_videos uid ch all_failed')
         = (if (length videos =? 0)%nat
            then length (get_channel_failed_videos uid ch all_failed)
            else Nat.min 20 (length (get_channel_failed_videos uid ch all_failed)
                             + length videos))
      /\ (forall uid' ch', uid' <> uid \/ ch' <> ch ->
            get_channel_failed_videos uid' ch' all_failed'
            = get_channel_failed_videos uid' ch' all_failed)
  | inl Http.BAD_REQUEST => ch = ""%string
  | inl Http.NOT_FOUND => get_token uid ch tokens = None
  | inl _ => False
  end.
Proof.
  unfold Feeds.refresh_failed_videos, truthy_str.
  destruct (String.eqb_spec ch "") as [E|E]; cbn [negb]; [exact E|].
  destruct (get_token uid ch tokens) as [tk|]; [|reflexivity].
  split; [|split; [|split; [|split]]].
  - unfold Feeds.failed_videos_of_jobs.
    apply (slice_to_length 20). lia.
  - apply slice_to_sorted, sort_by_desc_sorted.
  - intros fv Hfv. unfold Feeds.failed_videos_of_jobs in Hfv.
    apply slice_to_In in Hfv.
    apply (Permutation_in _ (Permutation_sym (sort_by_desc_perm _ _))) in Hfv.
    apply in_map_iff in Hfv as (j & <- & Hj).
    apply filter_In in Hj as [Hj Hf]. unfold Feeds.is_failed_job in Hf.
    apply andb_true_iff in Hf as [Hf Hm].
    apply andb_true_iff in Hf as [Hc Hs].
    apply String.eqb_eq in Hc. unfold status_eqb in Hs.
    destruct (JobStatus_eq_dec (status j) FAILED) as [Hs'|]; [|discriminate].
    exists j. repeat split; try assumption.
    cbn. destruct (error_message j); [reflexivity|discriminate].
  - rewrite save_failed_videos_length.
    now destruct (Feeds.failed_videos_of_jobs uid ch jobs0).
  - intros uid' ch' Hne.
    induction (Feeds.failed_videos_of_jobs uid ch jobs0) as [|fv r IH]
      using rev_ind; [reflexivity|].
    rewrite fold_left_app. cbn [fold_left].
    rewrite save_failed_video_others by assumption. exact IH.
Qed.

(** ** Signup and login *)

Lemma get_user_by_email_None e users :
  get_user_by_email e users = None <-> ~ In e (map email (values users)).
Proof.
  induction users as [|[k u] r IH]; cbn; [tauto|].
  destruct (String.eqb_spec (email u) e) as [E|E].
  - split; [discriminate|]. intros H. elim H. now left.
  - destruct IH as [I1 I2]. split.
    + intros H [Q|Q]; [contradiction|]. now apply I1.
    + intros H. apply I2. tauto.
Qed.

Lemma get_user_by_email_Some e users uid u :
  get_user_by_email e users = Some (uid, u) -> email u = e /\ In (uid, u) users.
Proof.
  induction users as [|[k u'] r IH]; cbn; [discriminate|].
  destruct (String.eqb_spec (email u') e) as [E|E].
  - intros [= -> ->]. split; [exact E|now left].
  - intros H. destruct (IH H). split; [assumption|now right].
Qed.

Lemma get_user_by_email_saved e uid u users :
  email u = e ->
  get_user_by_email e users = None ->
  get_user_by_email e (save_user uid u users) = Some (uid, u).
Proof.
  intros Eu. unfold save_user.
  induction users as [|[k u'] r IH]; cbn.
  - intros _. destruct (String.eqb_spec (email u) e); [reflexivity|contradiction].
  - destruct (String.eqb_spec (email u') e) as [E|E]; [discriminate|].
    intros Hr. destruct (String.eqb_spec k uid) as [->|Hk]; cbn.
    + destruct (String.eqb_spec (email u) e); [reflexivity|contradiction].
    + destruct (String.eqb_spec (email u') e); [contradiction|now apply IH].
Qed.

Lemma save_user_emails e uid u users x :
  email u = e ->
  In x (map email (values (save_user uid u users))) ->
  x = e \/ In x (map email (values users)).
Proof.
  intros Eu H. unfold values in *. rewrite map_map in *.
  apply in_map_iff in H as ([k u'] & <- & Hin). cbn.
  apply dict_set_In in Hin as [[= -> ->]|Hin]; [now left|right].
  apply in_map_iff. now exists (k, u').
Qed.

Lemma save_user_emails_NoDup e uid u users :
  email u = e ->
  ~ In e (map email (values users)) ->
  NoDup (map email (values users)) ->
  NoDup (map email (values (save_user uid u users))).
Proof.
  intros Eu. unfold save_user.
  induction users as [|[k u'] r IH]; cbn; intros Hno Hnd.
  - rewrite Eu. constructor; [cbn; tauto|constructor].
  - apply NoDup_cons_iff in Hnd as [Hn Hr].
    destruct (String.eqb_spec k uid) as [Ek|Hk]; cbn.
    + rewrite Eu. constructor; [tauto|exact Hr].
    + constructor; [|apply IH; tauto].
      intros Hin.
      destruct (save_user_emails e uid u r (email u') Eu Hin) as [E|Hin'];
        tauto.
Qed.

(** X17. [signup] refuses an email that a stored user already has and
    changes nothing then. Otherwise it stores the new user under the new
    id, after which the email finds that user, a second signup with the
    same email is refused, a login with a password the hash verifies
    returns the new id, and emails that were unique among the stored users
    are still unique. *)
Theorem signup_registers_email_once
        (verify_password : string -> string -> bool)
        (e hash uid now1 now2 : string) (users : UserStore) :
  match Auth.signup e hash uid now1 now2 users with
  | inl err =>
      err = Http.BAD_REQUEST /\ In e (map email (values users))
  | inr (response, users') =>
      response = (uid, e)
      /\ ~ In e (map email (values users))
      /\ get_user uid users' = Some (mkUser e hash now1 now2)
      /\ get_user_by_email e users' = Some (uid, mkUser e hash now1 now2)
      /\ (forall hash2 uid2 now3 now4,
            Auth.signup e hash2 uid2 now3 now4 users' = inl Http.BAD_REQUEST)
      /\ (forall password,
            verify_password password hash = true ->
            Auth.login verify_password e password users' = inr (uid, e))
      /\ (NoDup (map email (values users)) ->
          NoDup (map email (values users')))
  end.
Proof.
  unfold Auth.signup.
  destruct (get_user_by_email e users) as [[k u]|] eqn:E.
  - split; [reflexivity|].
    apply get_user_by_email_Some in E as [Eu Hin].
    apply in_map_iff. exists u. split; [exact Eu|].
    change u with (snd (k, u)). now apply in_map.
  - pose proof (proj1 (get_user_by_email_None e users) E) as Hno.
    assert (Hfound : get_user_by_email e
                       (save_user uid (mkUser e hash now1 now2) users)
                     = Some (uid, mkUser e hash now1 now2))
      by (apply get_user_by_email_saved; [reflexivity|exact E]).
    split; [reflexivity|]. split; [exact Hno|].
    split; [apply dict_get_set_same|]. split; [exact Hfound|].
    split; [|split].
    + intros. unfold Auth.signup. now rewrite Hfound.
    + intros password Hv. unfold Auth.login. rewrite Hfound. cbn.
      now rewrite Hv.
    + now apply (save_user_emails_NoDup e).
Qed.

(** X18. [login] answers 401 for an email no stored user has and for a
    password the stored hash does not verify; when it succeeds, the id and
    email it returns are those of a stored user with that email whose hash
    verifies the password. *)
Theorem login_checks_stored_hash
        (verify_password : string -> string -> bool)
        (e password : string) (users : UserStore) :
  match Auth.login verify_password e password users with
  | inr (uid, e') =>
      e' = e
      /\ exists user, In (uid, user) users /\ email user = e
                      /\ verify_password password (password_hash user) = true
  | inl err =>
      err = Http.UNAUTHORIZED
      /\ (~ In e (map email (values users))
          \/ exists uid user,
               get_user_by_email e users = Some (uid, user)
               /\ verify_password password (password_hash user) = false)
  end.
Proof.
  unfold Auth.login.
  destruct (get_user_by_email e users) as [[k u]|] eqn:E.
  - destruct (verify_password password (password_hash u)) eqn:Hv; cbn [negb].
    + apply get_user_by_email_Some in E as [Eu Hin]. split; [exact Eu|eauto].
    + split; [reflexivity|]. right. eauto.
  - split; [reflexivity|]. left. now apply get_user_by_email_None.
Qed.

(** ** The request validator *)

Section ValidatorFacts.
Variable VideoSchedule : Type.
Variable construct : dict Validator.JSON -> VideoSchedule + list string.

Local Abbreviation loop := (Validator.validate_loop VideoSchedule construct).
Local Abbreviation validated :=
  (flat_map (fun v => match v with
                      | Validator.JDict d =>
                          match construct d with
                          | inl video => [video]
                          | inr _ => []
                          end
                      | _ => []
                      end)).

Lemma validate_loop_objects videos : forall idx valid errors,
  Forall (fun v => exists d, v = Validator.JDict d) videos ->
  exists es,
    loop videos idx valid errors
    = Ok (negb (length (valid ++ validated videos) =? 0)%nat,
          (valid ++ validated videos)%list, (errors ++ es)%list)
    /\ (length (validated videos) + length es = length videos)%nat
    /\ Forall (fun e =>
                 exists i d msgs,
                   e = Validator.Invalid (idx + i)
                         (match dict_get "title" d with
                          | Some t => t
                          | None => Validator.JString "Unknown"
                          end) msgs
                   /\ nth_error videos i = Some (Validator.JDict d)
                   /\ construct d = inr msgs) es.
Proof.
  induction videos as [|v r IH]; intros idx valid errors Hobj.
  - exists []. cbn. rewrite !app_nil_r. repeat split. constructor.
  - inversion Hobj as [|? ? [d ->] Hr]; subst.
    cbn [Validator.validate_loop flat_map].
    destruct (construct d) as [video|msgs] eqn:Ec.
    + destruct (IH (S idx) (valid ++ [video])%list errors Hr)
        as (es & Hl & Hlen & Hes).
      exists es. rewrite Hl, <- !app_assoc. cbn [app length]. repeat split.
      * lia.
      * eapply Forall_impl; [|exact Hes].
        intros e (i & d' & msgs & -> & Hn & Hc).
        exists (S i), d', msgs. rewrite Nat.add_succ_r. now repeat split.
    + destruct (IH (S idx) valid
                   (errors ++ [Validator.Invalid idx
                                 (match dict_get "title" d with
                                  | Some t => t
                                  | None => Validator.JString "Unknown"
                                  end) msgs])%list Hr)
        as (es & Hl & Hlen & Hes).
      eexists (_ :: es). rewrite Hl, <- !app_assoc. cbn [app length].
      repeat split.
      * lia.
      * constructor.
        -- exists 0%nat, d, msgs. rewrite Nat.add_0_r. now repeat split.
        -- eapply Forall_impl; [|exact Hes].
           intros e (i & d' & msgs' & -> & Hn & Hc).
           exists (S i), d', msgs'. rewrite Nat.add_succ_r. now repeat split.
Qed.

Lemma validate_loop_non_object videos : forall idx valid errors,
  Exists (fun v => forall d, v <> Validator.JDict d) videos ->
  loop videos idx valid errors = Raised "TypeError".
Proof.
  induction videos as [|v r IH]; intros idx valid errors Hex.
  - inversion Hex.
  - cbn [Validator.validate_loop].
    destruct v as [| | | | |d]; try reflexivity.
    inversion Hex as [? ? Hv|? ? Hr]; subst; [now elim (Hv d)|].
    destruct (construct d); now apply IH.
Qed.

(** X19. For a request whose [videos] array is not empty and holds
    objects only, [validate_request] returns the videos that validate, in
    the order of the array, and one error per video that does not, with
    its index and messages: every video is counted once, and the request
    is valid exactly when at least one video validates. *)
Theorem validate_request_partitions
        (d : dict Validator.JSON) (videos : list Validator.JSON) :
  dict_get "videos" d = Some (Validator.JList videos) ->
  videos <> [] ->
  Forall (fun v => exists o, v = Validator.JDict o) videos ->
  exists errors,
    Validator.validate_request VideoSchedule construct (Validator.JDict d)
    = Ok (negb (length (validated videos) =? 0)%nat, validated videos, errors)
    /\ (length (validated videos) + length errors = length videos)%nat
    /\ Forall (fun e =>
                 exists i o msgs,
                   e = Validator.Invalid i
                         (match dict_get "title" o with
                          | Some t => t
                          | None => Validator.JString "Unknown"
                          end) msgs
                   /\ nth_error videos i = Some (Validator.JDict o)
                   /\ construct o = inr msgs) errors.
Proof.
  intros Hd Hne Hobj. unfold Validator.validate_request. rewrite Hd.
  destruct videos as [|v r]; [contradiction|].
  cbn [length Nat.eqb].
  destruct (validate_loop_objects (v :: r) 0 [] [] Hobj) as (es & Hl & Hlen & Hes).
  exists es. cbn [app] in Hl. split; [exact Hl|]. split; [exact Hlen|exact Hes].
Qed.

(** X20. An element of the [videos] array that is not an object is not
    reported as an error of the request: [validate_request] raises. *)
Theorem validate_request_raises_on_non_object
        (d : dict Validator.JSON) (videos : list Validator.JSON) :
  dict_get "videos" d = Some (Validator.JList videos) ->
  Exists (fun v => forall o, v <> Validator.JDict o) videos ->
  Validator.validate_request VideoSchedule construct (Validator.JDict d)
  = Raised "TypeError".
Proof.
  intros Hd Hex. unfold Validator.validate_request. rewrite Hd.
  destruct videos as [|v r]; [inversion Hex|].
  cbn [length Nat.eqb]. now apply validate_loop_non_object.
Qed.

End ValidatorFacts.

(** ** The file id of a Drive URL *)

Lemma str_app_nil_r (s : string) : (s ++ "")%string = s.
Proof. induction s as [|c r IH]; cbn; [reflexivity|now rewrite IH]. Qed.

Lemma str_app_assoc (a b c : string) :
  ((a ++ b) ++ c)%string = (a ++ (b ++ c))%string.
Proof. induction a as [|x r IH]; cbn; [reflexivity|now rewrite IH]. Qed.

Lemma str_contains_cons sub c r :
  str_contains sub (String c r) = false ->
  String.prefix sub (String c r) = false /\ str_contains sub r = false.
Proof. cbn [str_contains]. now intros H%orb_false_iff. Qed.

(** The first piece of a split starts with the piece being read. *)
Lemma str_split_from_hd sep s : forall skip cur,
  exists y, hd ""%string (str_split_from sep s skip cur) = (cur ++ y)%string.
Proof.
  induction s as [|c r IH]; intros skip cur.
  - exists ""%string. cbn. now rewrite str_app_nil_r.
  - cbn [str_split_from]. destruct skip as [|k]; [|apply IH].
    destruct (String.prefix sep (String c r)).
    + exists ""%string. cbn. now rewrite str_app_nil_r.
    + destruct (IH 0%nat (cur ++ String c "")%string) as [y Hy].
      exists (String c y). rewrite Hy. now rewrite str_app_assoc.
Qed.

(** Characters that are not the first of the separator are read into the
    current piece. *)
Lemma str_split_from_skip_word c sep' w : forall z cur,
  str_contains (String c "") w = false ->
  str_split_from (String c sep') (w ++ z) 0 cur
  = str_split_from (String c sep') z 0 (cur ++ w).
Proof.
  induction w as [|a w' IH]; intros z cur Hw.
  - cbn. now rewrite str_app_nil_r.
  - apply str_contains_cons in Hw as [Ha Hw'].
    cbn [append str_split_from].
    cbn [String.prefix] in Ha |- *.
    destruct (ascii_dec c a) as [E|E].
    + exfalso. destruct w'; discriminate.
    + rewrite IH by assumption. now rewrite str_app_assoc.
Qed.

(** Splitting at a single character gives pieces without it; here, the
    first piece. *)
Lemma str_contains_char_snoc c cur a :
  str_contains (String c "") cur = false -> a <> c ->
  str_contains (String c "") (cur ++ String a "") = false.
Proof.
  intros Hc Ha. induction cur as [|b r IH].
  - cbn. destruct (ascii_dec c a); [congruence|reflexivity].
  - apply str_contains_cons in Hc as [Hb Hr].
    cbn [append str_contains]. rewrite IH by assumption.
    cbn [String.prefix] in Hb |- *.
    destruct (ascii_dec c b); [|reflexivity].
    exfalso. destruct r; discriminate.
Qed.

Lemma str_split_char_hd c s : forall cur,
  str_contains (String c "") cur = false ->
  str_contains (String c "")
               (hd ""%string (str_split_from (String c "") s 0 cur)) = false.
Proof.
  induction s as [|a r IH]; intros cur Hcur; [exact Hcur|].
  cbn [str_split_from String.prefix].
  destruct (ascii_dec c a) as [E|E].
  - destruct r; exact Hcur.
  - apply IH. apply str_contains_char_snoc; congruence.
Qed.

Lemma str_split_word_hd c w tail :
  str_contains (String c "") w = false ->
  tail = ""%string \/ (exists rest, tail = String c rest) ->
  hd ""%string (str_split (String c "") (w ++ tail)) = w.
Proof.
  intros Hw Htail. unfold str_split.
  rewrite str_split_from_skip_word by exact Hw. cbn [append].
  destruct Htail as [->|[rest ->]]; [reflexivity|].
  cbn [str_split_from String.prefix].
  destruct (ascii_dec c c) as [_|E]; [|now elim E].
  now destruct rest.
Qed.

Lemma file_marker_split base : forall z cur,
  str_contains "/f" base = false ->
  str_split_from "/file/d/" (base ++ "/file/d/" ++ z) 0 cur
  = (cur ++ base)%string :: str_split_from "/file/d/" z 0 "".
Proof.
  induction base as [|a b IH]; intros z cur Hb.
  - rewrite str_app_nil_r. destruct z; reflexivity.
  - apply str_contains_cons in Hb as [Ha Hb'].
    change ((String a b ++ "/file/d/" ++ z)%string)
      with (String a (b ++ "/file/d/" ++ z)).
    cbn [str_split_from].
    assert (Hp : String.prefix "/file/d/" (String a (b ++ "/file/d/" ++ z))
                 = false).
    { cbn [String.prefix] in Ha |- *.
      destruct (ascii_dec "/" a) as [E|E]; [|reflexivity].
      destruct b as [|a2 b2]; [reflexivity|].
      cbn [append String.prefix] in Ha |- *.
      destruct (ascii_dec "f" a2); [|reflexivity].
      exfalso. destruct b2; discriminate. }
    rewrite Hp, IH by assumption.
    change (String a b) with (String a "" ++ b)%string.
    now rewrite str_app_assoc.
Qed.

Lemma file_marker_found base z :
  str_contains "/file/d/" (base ++ "/file/d/" ++ z) = true.
Proof.
  induction base as [|a b IH].
  - destruct z; reflexivity.
  - change ((String a b ++ "/file/d/" ++ z)%string)
      with (String a (b ++ "/file/d/" ++ z)).
    cbn [str_contains]. rewrite IH. apply orb_true_r.
Qed.

Lemma nth_1_cons {A} (a : A) l d : nth 1 (a :: l) d = hd d l.
Proof. now destruct l. Qed.

(** X21. The file id of a link of the form [.../file/d/ID] or
    [.../file/d/ID/...] is [ID], when [ID] has no slash and nothing before
    the marker begins like it; [download_file] then goes on with that id,
    or raises for the empty one. *)
Theorem extract_file_id_of_file_link (base id tail : string) :
  str_contains "/f" base = false ->
  str_contains "/" id = false ->
  tail = ""%string \/ (exists rest, tail = String "/" rest) ->
  Drive._extract_file_id (base ++ "/file/d/" ++ id ++ tail) = Some id
  /\ Drive.download_file_id (base ++ "/file/d/" ++ id ++ tail)
     = if (id =? "")%string then Raised "Invalid Google Drive URL" else Ok id.
Proof.
  intros Hb Hid Htail.
  assert (He : Drive._extract_file_id (base ++ "/file/d/" ++ id ++ tail)
               = Some id).
  { unfold Drive._extract_file_id. rewrite file_marker_found.
    unfold str_split at 2. rewrite file_marker_split by exact Hb.
    rewrite nth_1_cons.
    rewrite (str_split_from_skip_word "/" "file/d/" id tail "" Hid).
    cbn [append]. f_equal.
    assert (Hplain : hd ""%string (str_split "/" id) = id).
    { rewrite <- (str_app_nil_r id) at 1.
      apply str_split_word_hd; [exact Hid|now left]. }
    destruct Htail as [->|[rest ->]]; [exact Hplain|].
    cbn [str_split_from].
    destruct (String.prefix "/file/d/" (String "/" rest)); [exact Hplain|].
    destruct (str_split_from_hd "/file/d/" rest 0 (id ++ "/")%string)
      as [y Hy].
    rewrite Hy, str_app_assoc. apply str_split_word_hd; [exact Hid|].
    right. cbn [append]. eauto. }
  split; [exact He|]. unfold Drive.download_file_id. rewrite He.
  unfold truthy_str. now destruct (id =? "")%string.
Qed.

(** X22. What [_extract_file_id] returns for the [/file/d/] form has no
    slash, what it returns for the [id=] form has no ampersand, and it
    returns nothing exactly when the URL has neither marker. *)
Theorem extract_file_id_has_no_separator (url : string) :
  match Drive._extract_file_id url with
  | Some id =>
      if str_contains "/file/d/" url then str_contains "/" id = false
      else str_contains "id=" url = true /\ str_contains "&" id = false
  | None =>
      str_contains "/file/d/" url = false /\ str_contains "id=" url = false
  end.
Proof.
  unfold Drive._extract_file_id.
  destruct (str_contains "/file/d/" url).
  - unfold str_split at 1. now apply str_split_char_hd.
  - destruct (str_contains "id=" url); [|now split].
    split; [reflexivity|]. unfold str_split at 1. now apply str_split_char_hd.
Qed.

(** ** Inclusion in the view *)

Section Inclusion.
Variable fromisoformat : string -> option Z.
Variable R : Remote.
Variable current_time : Z.

Local Abbreviation step := (get_jobs_job fromisoformat R current_time).

(** X23. A job without a video id, or without a channel id, is in the view
    of [get_jobs] exactly when its own target is in the future and its
    stored status is [scheduled], [uploaded] or [pending]; its entry keeps
    the stored status. *)
Theorem get_jobs_counts_pending_uploads
        (uid : string) (channel_id0 : option string) (now_iso : string)
        (s : JobStore) (j : Job) :
  wf_store s ->
  In j (get_user_jobs uid s) ->
  status_fetch R j = None ->
  (in_view j (fst (get_jobs fromisoformat R current_time uid channel_id0
                            now_iso s))
   <-> exists t, job_publish_time fromisoformat j = Some t
                 /\ current_time < t
                 /\ (status j = SCHEDULED \/ status j = UPLOADED
                     \/ status j = PENDING))
  /\ job (fst (step j)) = j.
Proof.
  intros Hwf Hj Hf.
  assert (Hs : step j = (mkEntry j (match metadata j with
                                    | Some m => md_description m
                                    | None => ""%string
                                    end) None None false,
                         get_jobs_no_video fromisoformat current_time j)).
  { unfold status_fetch in Hf. unfold get_jobs_job.
    destruct (video_id j) as [vid|]; [|reflexivity].
    destruct (truthy_str vid && truthy_str (channel_id j));
      [discriminate|reflexivity]. }
  split; [|now rewrite Hs].
  rewrite in_view_iff by assumption. rewrite Hs. cbn [snd].
  unfold get_jobs_no_video.
  destruct (job_publish_time fromisoformat j) as [t|].
  - split.
    + intros H. apply andb_true_iff in H as [Ht Hst].
      exists t. split; [reflexivity|]. split; [lia|].
      apply status_in_cases in Hst. cbn in Hst. intuition congruence.
    + intros (t' & [= <-] & Hlt & Hst). apply andb_true_iff. split; [lia|].
      destruct Hst as [->|[->| ->]]; reflexivity.
  - split; [discriminate|]. intros (t' & Ht & _). discriminate.
Qed.

(** X24. [get_jobs] follows the precedence for a job whose remote state
    was fetched: when the video is private or unlisted with a
    scheduled-publish instant in the future, or has no scheduled-publish
    time while the job's own target is in the future, the job is in the
    view and its entry reads [scheduled]. *)
Theorem get_jobs_includes_scheduled
        (uid : string) (channel_id0 : option string) (now_iso : string)
        (s : JobStore) (j : Job) (v : Video) :
  wf_store s ->
  In j (get_user_jobs uid s) ->
  status_fetch R j = Some (Ok (Some v)) ->
  private_or_unlisted v = true ->
  (truthy (publish_at v) = true
   /\ exists t, instant_of fromisoformat (publish_at v) = Some t
                /\ current_time < t)
  \/ (truthy (publish_at v) = false
      /\ exists t, job_publish_time fromisoformat j = Some t
                   /\ current_time < t) ->
  in_view j (fst (get_jobs fromisoformat R current_time uid channel_id0
                           now_iso s))
  /\ status (job (fst (step j))) = SCHEDULED.
Proof.
  intros Hwf Hj Hf Hp Hcase.
  destruct (get_jobs_job_fetched fromisoformat R current_time j v Hf)
    as [Hst Hinc].
  assert (Hnp : (privacy_status v =? "public")%string = false).
  { unfold private_or_unlisted, str_in in Hp. cbn in Hp.
    destruct (String.eqb_spec (privacy_status v) "public") as [E|E];
      [|reflexivity].
    rewrite E in Hp. discriminate. }
  assert (Hres : get_jobs_resolve fromisoformat current_time j v
                 = (SCHEDULED, true)).
  { unfold get_jobs_resolve. unfold private_or_unlisted in Hp.
    rewrite Hnp, Hp.
    destruct Hcase as [(Hat & t & Ht & Hlt)|(Hat & t & Ht & Hlt)];
      rewrite Hat; cbn [andb]; rewrite Ht.
    - destruct (Z.leb_spec t current_time); [lia|reflexivity].
    - destruct (Z.gtb_spec t current_time); [reflexivity|lia]. }
  rewrite Hres in Hst, Hinc. split; [|exact Hst].
  now rewrite in_view_iff.
Qed.

End Inclusion.

(** ** These theorems at work *)

Lemma save_failed_video_capped_witness :
  let fv := mkFailedVideo "First" "2030-06-01T00:00:00+00:00"
                          "2030-01-01T00:00:00+00:00" "upload failed" "j1"
                          None in
  (length (get_channel_failed_videos "u1" "c1"
             (save_failed_video "u1" "c1" fv 20 [])) <= Z.to_nat 20)%nat.
Proof.
  cbv zeta.
  refine (proj1 (save_failed_video_capped "u1" "c1" _ 20 [] _)). lia.
Defined.

Lemma save_recent_videos_replaces_witness :
  let rv := mkRecentVideo "v1" "First" "" "scheduled" "private"
                          "2030-06-01T00:00:00Z" "" None "" "youtube" in
  (length (get_channel_recent_videos "u1" "c1"
             (save_recent_videos "u1" "c1" [rv; rv] 1 [])) <= Z.to_nat 1)%nat.
Proof.
  cbv zeta.
  refine (proj1 (save_recent_videos_replaces "u1" "c1" _ 1 [] _)). lia.
Defined.

Lemma fire_only_once_witness :
  let R := Ex.remote (Ok []) (Ok None) (Ok tt) in
  fire R "j1" (fire R "j1" Ex.world1) = fire R "j1" Ex.world1.
Proof.
  cbv zeta.
  refine (proj1 (fire_only_once (Ex.remote (Ok []) (Ok None) (Ok tt)) "j1"
                                Ex.world1 _)).
  repeat constructor. simpl. tauto.
Defined.

Lemma get_jobs_view_statuses_witness :
  let R := Ex.remote (Ok []) (Ok (Some (Ex.video "v1" "private" Ex.june)))
                     (Ok tt) in
  let e := fst (get_jobs_job Iso.fromisoformat R Ex.now Ex.job1) in
  user_id (job e) = "u1"%string
  /\ status (job e) <> PUBLISHED
  /\ status (job e) <> FAILED
  /\ (status (job e) = SCHEDULED
      \/ ((status (job e) = UPLOADED \/ status (job e) = PENDING)
          /\ from_youtube e = false
          /\ truthy (video_id (job e)) && truthy_str (channel_id (job e))
             = false)).
Proof.
  cbv zeta.
  apply (get_jobs_view_statuses Iso.fromisoformat
           (Ex.remote (Ok []) (Ok (Some (Ex.video "v1" "private" Ex.june)))
                      (Ok tt))
           Ex.now "u1" None "" Ex.store1).
  vm_compute. now left.
Defined.

Lemma get_jobs_one_entry_per_video_witness :
  let R := Ex.remote (Ok [Ex.video "v1" "private" Ex.june])
                     (Ok (Some (Ex.video "v1" "private" Ex.june))) (Ok tt) in
  NoDup (map (fun e => video_id (job e))
             (fst (get_jobs Iso.fromisoformat R Ex.now "u1" None "" Ex.store2))).
Proof.
  cbv zeta. apply get_jobs_one_entry_per_video.
  vm_compute. repeat constructor; simpl; intuition discriminate.
Defined.

Lemma get_jobs_remote_only_entries_witness :
  let listed := Ex.video "v1" "private" Ex.june in
  let R := Ex.remote (Ok [listed]) (Raised "quotaExceeded") (Ok tt) in
  let e := mkEntry (mkJob "youtube_v1" "u1" "c1" (Some "v1"%string) "First"
                          SCHEDULED Ex.june "2030-01-01T00:00:00+00:00"
                          None None)
                   "" (Some "private"%string) Ex.june true in
  exists v c items t,
    In c (channels_to_check R (Some "c1"%string))
    /\ videos_list R c = Ok items /\ In v items
    /\ private_or_unlisted v = true
    /\ job_id (job e) = ("youtube_" ++ v_video_id v)%string
    /\ video_id (job e) = Some (v_video_id v)
    /\ status (job e) = SCHEDULED
    /\ publish_datetime (job e) = publish_at v
    /\ instant_of Iso.fromisoformat (publish_at v) = Some t
    /\ Ex.now < t.
Proof.
  cbv zeta.
  apply (get_jobs_remote_only_entries Iso.fromisoformat
           (Ex.remote (Ok [Ex.video "v1" "private" Ex.june])
                      (Raised "quotaExceeded") (Ok tt))
           Ex.now "u1"
           (Some "c1"%string) "2030-01-01T00:00:00+00:00" Ex.store_past).
  - vm_compute. now left.
  - reflexivity.
Defined.

Lemma sync_writes_statuses_only_witness :
  let R := Ex.remote (Ok []) (Ok (Some (Ex.video "v1" "public" None))) (Ok tt) in
  keys (snd (sync_jobs_with_youtube Iso.fromisoformat R Ex.now "u1" Ex.store2))
  = keys Ex.store2.
Proof.
  cbv zeta.
  refine (proj1 (sync_writes_statuses_only Iso.fromisoformat
                   (Ex.remote (Ok []) (Ok (Some (Ex.video "v1" "public" None)))
                              (Ok tt))
                   Ex.now "u1" Ex.store2 _)).
  split; [repeat constructor; simpl; intuition discriminate
         |repeat constructor].
Defined.

Lemma sync_count_is_changed_statuses_witness :
  let R := Ex.remote (Ok []) (Ok (Some (Ex.video "v1" "public" None))) (Ok tt) in
  fst (sync_jobs_with_youtube Iso.fromisoformat R Ex.now "u1" Ex.store2)
  = length
      (filter
         (fun kv =>
            match get_job (fst kv)
                    (snd (sync_jobs_with_youtube Iso.fromisoformat R Ex.now
                                                 "u1" Ex.store2)) with
            | Some j' => negb (status_eqb (status (snd kv)) (status j'))
            | None => false
            end) Ex.store2).
Proof.
  cbv zeta. apply sync_count_is_changed_statuses.
  split; [repeat constructor; simpl; intuition discriminate
         |repeat constructor].
Defined.

Lemma validate_request_partitions_witness :
  let construct := fun d : dict Validator.JSON =>
                     match dict_get "title" d with
                     | Some (Validator.JString t) => inl t
                     | _ => inr ["Field required"%string]
                     end in
  let videos := [Validator.JDict [("title"%string, Validator.JString "a")];
                 Validator.JDict []] in
  exists errors,
    Validator.validate_request string construct
      (Validator.JDict [("videos"%string, Validator.JList videos)])
    = Ok (true, ["a"%string], errors)
    /\ length errors = 1%nat.
Proof.
  cbv zeta.
  destruct (validate_request_partitions string
              (fun d : dict Validator.JSON =>
                 match dict_get "title" d with
                 | Some (Validator.JString t) => inl t
                 | _ => inr ["Field required"%string]
                 end)
              [("videos"%string,
                Validator.JList
                  [Validator.JDict [("title"%string, Validator.JString "a")];
                   Validator.JDict []])]
              [Validator.JDict [("title"%string, Validator.JString "a")];
               Validator.JDict []])
    as (errors & Hr & Hl & _).
  - reflexivity.
  - discriminate.
  - repeat constructor; eexists; reflexivity.
  - exists errors. split; [exact Hr|]. cbn in Hl. lia.
Defined.

Lemma validate_request_raises_on_non_object_witness :
  Validator.validate_request string (fun _ => inl "ok"%string)
    (Validator.JDict
       [("videos"%string,
         Validator.JList [Validator.JDict []; Validator.JString "x"])])
  = Raised "TypeError".
Proof.
  apply (validate_request_raises_on_non_object string (fun _ => inl "ok"%string)
           _ [Validator.JDict []; Validator.JString "x"]).
  - reflexivity.
  - right. left. intros o. discriminate.
Defined.

Lemma extract_file_id_of_file_link_witness :
  Drive._extract_file_id
    "https://drive.google.com/file/d/1AbC_dEf/view?usp=sharing"
  = Some "1AbC_dEf"%string
  /\ Drive.download_file_id
       "https://drive.google.com/file/d/1AbC_dEf/view?usp=sharing"
     = Ok "1AbC_dEf"%string.
Proof.
  apply (extract_file_id_of_file_link "https://drive.google.com" "1AbC_dEf"
           "/view?usp=sharing").
  - reflexivity.
  - reflexivity.
  - right. eexists. reflexivity.
Defined.

Lemma get_jobs_counts_pending_uploads_witness :
  let R := Ex.remote (Ok []) (Ok None) (Ok tt) in
  let j := mkJob "j3" "u1" "c1" None "Third" PENDING
                 (Some "2030-06-01T00:00:00+00:00"%string)
                 "2029-12-01T00:00:00+00:00" None None in
  (in_view j (fst (get_jobs Iso.fromisoformat R Ex.now "u1" None ""
                            [("j3"%string, j)]))
   <-> exists t, job_publish_time Iso.fromisoformat j = Some t
                 /\ Ex.now < t
                 /\ (status j = SCHEDULED \/ status j = UPLOADED
                     \/ status j = PENDING))
  /\ job (fst (get_jobs_job Iso.fromisoformat R Ex.now j)) = j.
Proof.
  cbv zeta. apply get_jobs_counts_pending_uploads.
  - store_wf.
  - vm_compute. now left.
  - reflexivity.
Defined.

Lemma get_jobs_includes_scheduled_witness :
  let v := Ex.video "v1" "private" Ex.june in
  let R := Ex.remote (Ok []) (Ok (Some v)) (Ok tt) in
  in_view Ex.job1
          (fst (get_jobs Iso.fromisoformat R Ex.now "u1" None "" Ex.store1))
  /\ status (job (fst (get_jobs_job Iso.fromisoformat R Ex.now Ex.job1)))
     = SCHEDULED.
Proof.
  cbv zeta.
  apply (get_jobs_includes_scheduled Iso.fromisoformat _ Ex.now "u1" None ""
           Ex.store1 Ex.job1 (Ex.video "v1" "private" Ex.june)).
  - store_wf.
  - vm_compute. now left.
  - reflexivity.
  - reflexivity.
  - left. split; [reflexivity|].
    exists 1906502400. split; [vm_compute; reflexivity|reflexivity].
Defined.

(** Where the separator occurs, a split has a second piece: the index
    [[1]] of [_extract_file_id] is always there. *)
Lemma str_split_has_second_piece sep s :
  sep <> ""%string ->
  str_contains sep s = true ->
  (2 <= length (str_split sep s))%nat.
Proof.
  intros Hsep. unfold str_split. generalize ""%string as cur.
  assert (Hne : forall s' skip cur,
             (1 <= length (str_split_from sep s' skip cur))%nat).
  { induction s' as [|c r IH]; intros skip cur; [cbn; lia|].
    cbn [str_split_from]. destruct skip; [|apply IH].
    destruct (String.prefix sep (String c r)); [cbn [length]; lia|apply IH]. }
  induction s as [|c r IH]; intros cur Hc.
  - cbn in Hc. destruct sep; [contradiction|discriminate].
  - cbn [str_contains] in Hc. cbn [str_split_from].
    destruct (String.prefix sep (String c r)).
    + cbn [length]. specialize (Hne r (String.length sep - 1)%nat ""%string).
      lia.
    + apply IH. exact Hc.
Qed.

(** ** A sync followed by the list *)

Section SyncThenList.
Variable fromisoformat : string -> option Z.
Variable R : Remote.
Variable current_time : Z.

Local Abbreviation new_status_of := (sync_new_status fromisoformat R current_time).
Local Abbreviation step := (get_jobs_job fromisoformat R current_time).
Local Abbreviation loop := (get_jobs_loop fromisoformat R current_time).
Local Abbreviation sync := (sync_jobs_with_youtube fromisoformat R current_time).
Local Abbreviation settle :=
  (fun j => match new_status_of j with
            | Some ns => set_status ns j
            | None => j
            end).

Lemma sync_store_map uid s :
  wf_store s ->
  snd (sync uid s)
  = map (fun kv => (fst kv,
                    if (user_id (snd kv) =? uid)%string
                    then settle (snd kv) else snd kv)) s.
Proof.
  intros Hwf.
  assert (Hget : forall k j, In (k, j) s ->
                   In (k, if (user_id j =? uid)%string then settle j else j)
                      (snd (sync uid s))).
  { intros k j Hin. apply dict_get_In.
    apply (sync_store_get fromisoformat R current_time uid s k j Hwf).
    apply In_dict_get; [apply Hwf|exact Hin]. }
  unfold sync_jobs_with_youtube in *.
  rewrite sync_loop_store in * by apply Hwf.
  apply map_ext_in. intros [k j] Hin. cbn [fst snd]. f_equal.
  specialize (Hget k j Hin).
  apply in_map_iff in Hget as ([k' j'] & E & Hin'). cbn [fst snd] in E.
  injection E as Ek Ej. subst k'.
  assert (j' = j); [|subst j'; exact Ej].
  destruct Hwf as [Hnd _].
  apply (In_dict_get _ _ _ Hnd) in Hin, Hin'. congruence.
Qed.

Lemma get_jobs_job_settled j :
  step (settle j) = step j /\ video_id (settle j) = video_id j.
Proof.
  cbv beta.
  destruct (new_status_of j) as [ns|] eqn:E; [|now split].
  split; [|reflexivity].
  unfold sync_new_status in E. unfold get_jobs_job.
  cbn [metadata video_id channel_id set_status].
  destruct (video_id j) as [vid|]; [|discriminate].
  destruct (truthy_str vid && truthy_str (channel_id j)); [|discriminate].
  destruct (get_video_status R (channel_id j) vid) as [[v|]|];
    try discriminate.
  reflexivity.
Qed.

Lemma get_jobs_loop_settled js : forall acc ymap,
  loop (map settle js) acc ymap = loop js acc ymap.
Proof.
  induction js as [|j rest IH]; intros acc ymap; [reflexivity|].
  cbn [map get_jobs_loop].
  destruct (get_jobs_job_settled j) as [Hs Hv].
  rewrite Hs. unfold forget_video. rewrite Hv.
  destruct (step j) as [e inc]. destruct inc; apply IH.
Qed.

Lemma get_user_jobs_synced uid s :
  wf_store s ->
  get_user_jobs uid (snd (sync uid s)) = map settle (get_user_jobs uid s).
Proof.
  intros Hwf. rewrite sync_store_map by exact Hwf.
  unfold get_user_jobs, values. rewrite map_map. cbn [snd].
  induction s as [|[k j] r IH]; [reflexivity|].
  cbn [map filter fst snd].
  assert (Hr : wf_store r).
  { destruct Hwf as [Hnd Hid]. inversion Hnd; inversion Hid; subst.
    now split. }
  destruct (user_id j =? uid)%string eqn:Eu.
  - assert (Eu' : (user_id (settle j) =? uid)%string = true).
    { cbv beta. destruct (new_status_of j); exact Eu. }
    rewrite Eu'. cbn [map]. f_equal. now apply IH.
  - rewrite Eu. now apply IH.
Qed.

(** X25. With the remote state and the current time fixed, a sync does not
    change what [get_jobs] shows: the list returned after
    [sync_jobs_with_youtube] is the list returned before it. *)
Theorem sync_keeps_the_view
        (uid : string) (channel_id0 : option string) (now_iso : string)
        (s : JobStore) :
  wf_store s ->
  fst (get_jobs fromisoformat R current_time uid channel_id0 now_iso
                (snd (sync uid s)))
  = fst (get_jobs fromisoformat R current_time uid channel_id0 now_iso s).
Proof.
  intros Hwf. unfold get_jobs. cbn [fst]. f_equal.
  unfold get_jobs_entries.
  rewrite get_user_jobs_synced by exact Hwf.
  now rewrite get_jobs_loop_settled.
Qed.

End SyncThenList.

Lemma sync_keeps_the_view_witness :
  let R := Ex.remote (Ok []) (Ok (Some (Ex.video "v1" "private" Ex.june)))
                     (Ok tt) in
  fst (get_jobs Iso.fromisoformat R Ex.now "u1" None ""
         (snd (sync_jobs_with_youtube Iso.fromisoformat R Ex.now "u1"
                                      Ex.store2)))
  = fst (get_jobs Iso.fromisoformat R Ex.now "u1" None "" Ex.store2).
Proof.
  cbv zeta. apply sync_keeps_the_view.
  split; [repeat constructor; simpl; intuition discriminate
         |repeat constructor].
Defined.
